(** * go-fixedwidth: the encoder (encode.go), embedded and verified

    The development follows the package bottom-up:

    - [Go]         the fragments of the Go runtime and standard library the
                   encoder calls (byte slices, [copy], [bytes.Repeat],
                   [strconv], [strings.Split], run-time panics);
    - [Reflect]    the part of [reflect] the encoder inspects: types, values,
                   and the [encoding.TextMarshaler] method set;
    - [Bufio]      [bufio.Writer] over an in-memory [bytes.Buffer];
    - [Fixedwidth] the package itself, function by function;
    - the properties of the encoder.

    Platform: [int] is 64 bits wide. *)

From Stdlib Require Import ZArith Lia Bool String Ascii Strings.Byte List.
From Stdlib Require Import DecimalN DecimalFacts SpecFloat.
Import ListNotations.

Set Implicit Arguments.
Set Warnings "-register-all".
Open Scope Z_scope.

(* ================================================================= *)
(** ** Go runtime and standard library fragments *)

Module Go.

(** A Go computation either returns or panics. *)
Inductive exec (A : Type) : Type :=
| Done (a : A)
| Panic.
Arguments Done {A} a.
Arguments Panic {A}.

Definition bind {A B : Type} (m : exec A) (k : A -> exec B) : exec B :=
  match m with
  | Done a => k a
  | Panic => Panic
  end.

Notation "x <- m ;; k" := (bind m (fun x => k))
  (at level 61, m at next level, right associativity).

(** [[]byte] *)
Definition bytes := list byte.

(** [[]byte(s)] for a Go string [s]. *)
Definition bytesOf (s : string) : bytes := list_byte_of_string s.

(** [len(b)] as a Go [int]. *)
Definition len (b : bytes) : Z := Z.of_nat (List.length b).

(** 64-bit two's complement wrap-around of [int] arithmetic. *)
Definition wrap (z : Z) : Z := (z + 2 ^ 63) mod 2 ^ 64 - 2 ^ 63.

Definition intMin : Z := - 2 ^ 63.
Definition intMax : Z := 2 ^ 63 - 1.

(** [bytes.Repeat(b, count)]: panics on a negative count. *)
Definition Repeat (b : bytes) (count : Z) : exec bytes :=
  if count <? 0 then Panic
  else Done (concat (repeat b (Z.to_nat count))).

(** [copy(dst[lo:hi], src)], returning the updated [dst]: the slice
    expression panics unless [0 <= lo <= hi <= cap(dst)] (every [dst] here has
    [cap = len]); [copy] then moves [min(hi - lo, len(src))] bytes. *)
Definition copied (dst : bytes) (lo hi : Z) (src : bytes) : bytes :=
  let n := Nat.min (Z.to_nat (hi - lo)) (List.length src) in
  firstn (Z.to_nat lo) dst ++ firstn n src ++ skipn (Z.to_nat lo + n) dst.

Definition copyAt (dst : bytes) (lo hi : Z) (src : bytes) : exec bytes :=
  if (0 <=? lo) && (lo <=? hi) && (hi <=? len dst) then
    Done (copied dst lo hi src)
  else Panic.

(** *** strconv *)

Fixpoint digitBytes (d : Decimal.uint) : bytes :=
  match d with
  | Decimal.Nil => []
  | Decimal.D0 r => "0"%byte :: digitBytes r
  | Decimal.D1 r => "1"%byte :: digitBytes r
  | Decimal.D2 r => "2"%byte :: digitBytes r
  | Decimal.D3 r => "3"%byte :: digitBytes r
  | Decimal.D4 r => "4"%byte :: digitBytes r
  | Decimal.D5 r => "5"%byte :: digitBytes r
  | Decimal.D6 r => "6"%byte :: digitBytes r
  | Decimal.D7 r => "7"%byte :: digitBytes r
  | Decimal.D8 r => "8"%byte :: digitBytes r
  | Decimal.D9 r => "9"%byte :: digitBytes r
  end.

(** Decimal digits of a natural number, most significant first, ["0"] for
    zero. *)
Definition formatUint (n : N) : bytes := digitBytes (N.to_uint n).

(** [strconv.Itoa] *)
Definition Itoa (i : Z) : bytes :=
  if i <? 0 then "-"%byte :: formatUint (Z.to_N (- i))
  else formatUint (Z.to_N i).

Definition digitOf (c : ascii) : option N :=
  let n := N_of_ascii c in
  if (48 <=? n)%N && (n <=? 57)%N then Some (n - 48)%N else None.

Fixpoint parseDigits (s : string) (acc : N) : option N :=
  match s with
  | EmptyString => Some acc
  | String c r =>
      match digitOf c with
      | Some d => parseDigits r (10 * acc + d)%N
      | None => None
      end
  end.

(** [strconv.Atoi]: an optional sign, then one or more decimal digits, the
    value in the range of [int]; [None] stands for the returned error. *)
Definition Atoi (s : string) : option Z :=
  let '(neg, body) :=
    match s with
    | String "-"%char r => (true, r)
    | String "+"%char r => (false, r)
    | _ => (false, s)
    end in
  match body with
  | EmptyString => None
  | _ =>
      match parseDigits body 0 with
      | Some n =>
          let z := if neg : bool then - Z.of_N n else Z.of_N n in
          if (intMin <=? z) && (z <=? intMax) then Some z else None
      | None => None
      end
  end.

(** [strings.Split(s, sep)] for a one-byte separator. *)
Fixpoint Split (s : string) (sep : ascii) : list string :=
  match s with
  | EmptyString => [EmptyString]
  | String c r =>
      if Ascii.eqb c sep then EmptyString :: Split r sep
      else
        match Split r sep with
        | h :: t => String c h :: t
        | [] => [String c EmptyString]
        end
  end.

(** [strconv.FormatFloat(val, 'f', prec, bitSize)] for [prec >= 0].

    [scaledRound m e prec] is the integer nearest to [m * 2^e * 10^prec],
    ties to even: the digit string Go obtains by expanding the binary value
    exactly and rounding it at [prec] fraction digits. *)
Definition scaledRound (m : positive) (e : Z) (prec : nat) : N :=
  let n := (Npos m * 10 ^ N.of_nat prec)%N in
  if 0 <=? e then (n * 2 ^ Z.to_N e)%N
  else
    let d := (2 ^ Z.to_N (- e))%N in
    let q := (n / d)%N in
    let r := (n mod d)%N in
    if (d <? 2 * r)%N then (q + 1)%N
    else if (2 * r =? d)%N && N.odd q then (q + 1)%N
    else q.

(** Exactly [k] decimal digits of [n], zero-padded on the left. *)
Fixpoint fracDigits (k : nat) (n : N) : bytes :=
  match k with
  | O => []
  | S k' => fracDigits k' (n / 10)%N ++ formatUint (n mod 10)%N
  end.

(** The [%f] layout: sign, integer digits, and [prec] fraction digits. *)
Definition fmtF (neg : bool) (scaled : N) (prec : nat) : bytes :=
  let p := (10 ^ N.of_nat prec)%N in
  (if neg then ["-"%byte] else [])
    ++ formatUint (scaled / p)%N
    ++ match prec with
       | O => []
       | _ => "."%byte :: fracDigits prec (scaled mod p)%N
       end.

(** The value handed to [FormatFloat] is exactly representable at [bitSize]
    (for a [float32] it was widened by [Value.Float]), so the narrowing that
    [bitSize] asks for is the identity and [bitSize] has no other effect. *)
Definition FormatFloat (val : spec_float) (prec : nat) (bitSize : Z) : bytes :=
  match val with
  | S754_nan => bytesOf "NaN"
  | S754_infinity false => bytesOf "+Inf"
  | S754_infinity true => bytesOf "-Inf"
  | S754_zero s => fmtF s 0 prec
  | S754_finite s m e => fmtF s (scaledRound m e prec) prec
  end.

End Go.

(* ================================================================= *)
(** ** reflect: types, values, and the text-marshaling method set *)

Module Reflect.
Import Go.

(** What the encoder asks of every type: [Type.Name()] and
    [Type.Implements(encoding.TextMarshaler)]. *)
Record tinfo : Type := {
  Name : string;
  implementsTextMarshaler : bool
}.

Inductive IntKind := Int | Int8 | Int16 | Int32 | Int64.
Inductive FloatKind := Float32 | Float64.

(** The kinds the encoder has no case for. *)
Inductive OtherKind :=
| Bool | Uint | Uint8 | Uint16 | Uint32 | Uint64 | Uintptr
| Complex64 | Complex128 | Array | Chan | Func | Map | UnsafePointer.

(** [reflect.Type], one constructor per kind the encoder tells apart; a
    pointer type carries its [Elem()]. *)
Inductive rtype : Type :=
| TInt (ti : tinfo) (k : IntKind)
| TFloat (ti : tinfo) (k : FloatKind)
| TString (ti : tinfo)
| TPtr (ti : tinfo) (elem : rtype)
| TInterface (ti : tinfo)
| TStruct (ti : tinfo)
| TSlice (ti : tinfo)
| TOther (ti : tinfo) (k : OtherKind).

Definition info (t : rtype) : tinfo :=
  match t with
  | TInt ti _ | TFloat ti _ | TString ti | TPtr ti _
  | TInterface ti | TStruct ti | TSlice ti | TOther ti _ => ti
  end.

(** [t.Implements(reflect.TypeOf(new(encoding.TextMarshaler)).Elem())] *)
Definition Implements (t : rtype) : bool := implementsTextMarshaler (info t).

(** A struct field as the encoder sees it: its name and the result of
    [f.Tag.Get("fixed")] (the empty string when the key is absent). *)
Record StructField : Type := {
  FieldName : string;
  fixedTag : string
}.

(** [reflect.Value].  A struct value lists its fields in declaration order,
    each with the value [v.Field(i)], whose type is the field's declared
    type; an integer carries [v.Int()], a float [v.Float()]. *)
Inductive value : Type :=
| VInt (ti : tinfo) (k : IntKind) (i : Z)
| VFloat (ti : tinfo) (k : FloatKind) (f : spec_float)
| VString (ti : tinfo) (s : string)
| VNilPtr (ti : tinfo) (elem : rtype)
| VPtr (ti : tinfo) (p : value)
| VInterface (ti : tinfo) (held : option value)
| VStruct (ti : tinfo) (fields : list (StructField * value))
| VSlice (ti : tinfo) (elems : list value)
| VOther (ti : tinfo) (k : OtherKind).

(** [v.Type()] *)
Fixpoint typeOf (v : value) : rtype :=
  match v with
  | VInt ti k _ => TInt ti k
  | VFloat ti k _ => TFloat ti k
  | VString ti _ => TString ti
  | VNilPtr ti elem => TPtr ti elem
  | VPtr ti p => TPtr ti (typeOf p)
  | VInterface ti _ => TInterface ti
  | VStruct ti _ => TStruct ti
  | VSlice ti _ => TSlice ti
  | VOther ti k => TOther ti k
  end.

(** The values of Go's [error] interface that reach the encoder: the
    package's own [*MarshalInvalidTypeError], and errors raised by foreign
    [MarshalText] methods. *)
Inductive error : Type :=
| MarshalInvalidTypeError (typeName : string)
| ForeignError (msg : string).

(** A Go result pair [([]byte, error)]; [None] is the nil error. *)
Definition result : Type := (bytes * option error)%type.

(** The method set: what [v.Interface().(encoding.TextMarshaler).MarshalText()]
    does for a value whose type implements the interface.  The methods are
    user code, so the encoder is verified for every instance. *)
Class TextMarshaler : Type := {
  MarshalText : value -> exec result
}.

(** The loop [for v.Kind() == Ptr || v.Kind() == Interface { v = v.Elem() }]
    of [Encode]; [None] is the zero [Value] (kind [Invalid]) that [Elem]
    yields for a nil pointer or interface. *)
Fixpoint unwrap (v : value) : option value :=
  match v with
  | VPtr _ p => unwrap p
  | VInterface _ (Some h) => unwrap h
  | VNilPtr _ _ => None
  | VInterface _ None => None
  | _ => Some v
  end.

End Reflect.

(* ================================================================= *)
(** ** bufio.Writer over an in-memory bytes.Buffer *)

Module Bufio.
Import Go Reflect.

(** [sink] is the content of the underlying [bytes.Buffer], [buf] the bytes
    buffered and not yet handed over.  Writing to a [bytes.Buffer] never
    returns an error, so the writer's sticky error stays nil. *)
Record Writer : Type := {
  sink : bytes;
  buf : bytes
}.

(** [defaultBufSize] *)
Definition size : Z := 4096.

Definition NewWriter (under : bytes) : Writer := {| sink := under; buf := [] |}.

Definition Buffered (b : Writer) : Z := len (buf b).
Definition Available (b : Writer) : Z := size - len (buf b).

Definition Flush (b : Writer) : Writer * option error :=
  ({| sink := sink b ++ buf b; buf := [] |}, None).

(** [Write]: while [p] exceeds the room left, either hand it to the sink
    directly (empty buffer) or fill the buffer and flush; the loop runs at
    most twice, since the buffer is empty after the flush. *)
Definition Write (b : Writer) (p : bytes) : Writer * option error :=
  if len p <=? Available b then
    ({| sink := sink b; buf := buf b ++ p |}, None)
  else if Buffered b =? 0 then
    ({| sink := sink b ++ p; buf := [] |}, None)
  else
    let n := Z.to_nat (Available b) in
    let flushed := sink b ++ buf b ++ firstn n p in
    let p1 := skipn n p in
    if len p1 <=? size then ({| sink := flushed; buf := p1 |}, None)
    else ({| sink := flushed ++ p1; buf := [] |}, None).

(** Everything written so far, in order. *)
Definition written (b : Writer) : bytes := sink b ++ buf b.

End Bufio.

(* ================================================================= *)
(** ** package fixedwidth (encode.go) *)

Module Fixedwidth.
Import Go Reflect.

Record fieldSpec : Type := {
  startPos : Z;
  endPos : Z;
  leftpad : bool;
  value : bytes
}.

Definition withValue (f : fieldSpec) (b : bytes) : fieldSpec :=
  {| startPos := startPos f; endPos := endPos f; leftpad := leftpad f;
     value := b |}.

Definition fieldLength (f : fieldSpec) : Z :=
  wrap (wrap (endPos f - startPos f) + 1).

(** Modelled from the spec: the bounds of a position declaration, as
    [parseTag] reads them.  A bound that is not numeric, or [end < start],
    rejects the declaration; the layout starts with empty value bytes. *)
Definition layout (s e : string) (pad : bool) : option fieldSpec :=
  match Atoi s, Atoi e with
  | Some a, Some b =>
      if b <? a then None
      else Some {| startPos := a; endPos := b; leftpad := pad; value := [] |}
  | _, _ => None
  end.

(** Modelled from the spec: [parseTag], which encode.go calls and another
    file of the package defines.  The declaration has the shape
    ["<start>,<end>[,leftpad]"]; it is rejected ([None], the non-nil error)
    on a wrong token count, a bound that is not numeric, or [end < start];
    otherwise it yields the layout, [leftpad] set when the third token asks
    for it. *)
Definition parseTag (tag : string) : option fieldSpec :=
  match Split tag ","%char with
  | [s; e] => layout s e false
  | [s; e; m] => layout s e (String.eqb m "leftpad")
  | _ => None
  end.

Fixpoint leftpadChar (f : fieldSpec) (t : rtype) : byte :=
  if Implements t then " "%byte
  else
    match t with
    | TPtr _ elem => leftpadChar f elem
    | TInterface _ => " "%byte
    | TStruct _ => " "%byte
    | TString _ => " "%byte
    | TInt _ _ => "0"%byte
    | TFloat _ _ => "0"%byte
    | _ => " "%byte
    end.

(** The second loop of [encodeSpecs]. *)
Fixpoint copySpecs (data : bytes) (specs : list fieldSpec) : exec bytes :=
  match specs with
  | [] => Done data
  | spec :: rest =>
      data' <- copyAt data (wrap (startPos spec - 1)) (endPos spec)
                 (value spec) ;;
      copySpecs data' rest
  end.

(** The first loop of [encodeSpecs]. *)
Definition step (ll : Z) (spec : fieldSpec) : Z :=
  if endPos spec >? ll then endPos spec else ll.

Definition lineLength (specs : list fieldSpec) : Z := fold_left step specs 0.

Definition encodeSpecs (specs : list fieldSpec) : exec bytes :=
  let ll := lineLength specs in
  data <- Repeat [" "%byte] ll ;;
  copySpecs data specs.

Definition valueEncoder : Type := Reflect.value -> exec result.

Definition nilEncoder : valueEncoder := fun _ => Done ([], None).

(** Each leaf encoder is chosen by the type of the value it is applied to;
    [reflect]'s accessors reject a value of another kind, which no call of
    the package reaches. *)
Definition stringEncoder : valueEncoder := fun v =>
  match v with
  | VString _ s => Done (bytesOf s, None)
  | _ => Panic
  end.

Definition intEncoder : valueEncoder := fun v =>
  match v with
  | VInt _ _ i => Done (Itoa (wrap i), None)
  | _ => Panic
  end.

Definition floatEncoder (perc : nat) (bitSize : Z) : valueEncoder := fun v =>
  match v with
  | VFloat _ _ f => Done (FormatFloat f perc bitSize, None)
  | _ => Panic
  end.

Definition unknownTypeEncoder (t : rtype) : valueEncoder := fun _ =>
  Done ([], Some (MarshalInvalidTypeError (Name (info t)))).

Section Encoders.
Context {methods : TextMarshaler}.

Definition textMarshalerEncoder : valueEncoder := fun v => MarshalText v.

Section Dispatch.
(** The dispatcher, as the encoders that call back into it see it. *)
Variable newValueEncoder : option rtype -> valueEncoder.

Definition ptrInterfaceEncoder : valueEncoder := fun v =>
  match v with
  | VNilPtr _ _ => nilEncoder v
  | VInterface _ None => nilEncoder v
  | VPtr _ p => newValueEncoder (Some (typeOf p)) p
  | VInterface _ (Some h) => newValueEncoder (Some (typeOf h)) h
  | _ => Panic
  end.

(** Lines 173-178 of [structEncoder]: the padding of one field. *)
Definition padField (spec : fieldSpec) (t : rtype) (value : bytes)
  : exec fieldSpec :=
  if (len value <? fieldLength spec) && leftpad spec then
    padded <- Repeat [leftpadChar spec t] (fieldLength spec) ;;
    padded' <- copyAt padded (wrap (fieldLength spec - len value))
                 (len padded) value ;;
    Done (withValue spec padded')
  else Done (withValue spec value).

(** The loop of [structEncoder] over the fields from index [i] on, [specs]
    being the layouts appended so far. *)
Fixpoint structFields (fields : list (StructField * Reflect.value))
    (specs : list fieldSpec) : exec result :=
  match fields with
  | [] => data <- encodeSpecs specs ;; Done (data, None)
  | (f, fv) :: rest =>
      match parseTag (fixedTag f) with
      | None => structFields rest specs
      | Some spec =>
          r <- newValueEncoder (Some (typeOf fv)) fv ;;
          match r with
          | (_, Some err) => Done ([], Some err)
          | (value, None) =>
              spec' <- padField spec (typeOf fv) value ;;
              structFields rest (specs ++ [spec'])
          end
      end
  end.

Definition structEncoder : valueEncoder := fun v =>
  match v with
  | VStruct _ fields => structFields fields []
  | _ => Panic
  end.

End Dispatch.

Fixpoint newValueEncoder (t : option rtype) (v : Reflect.value) {struct v}
  : exec result :=
  match t with
  | None => nilEncoder v
  | Some t =>
      if Implements t then textMarshalerEncoder v
      else
        match t with
        | TPtr _ _ | TInterface _ => ptrInterfaceEncoder newValueEncoder v
        | TStruct _ => structEncoder newValueEncoder v
        | TString _ => stringEncoder v
        | TInt _ _ => intEncoder v
        | TFloat _ Float64 => floatEncoder 2 64 v
        | TFloat _ Float32 => floatEncoder 2 32 v
        | _ => unknownTypeEncoder t v
        end
  end.

(** An [Encoder]: the buffered writer and the line terminator. *)
Record Encoder : Type := {
  w : Bufio.Writer;
  LineEnd : bytes
}.

Definition withWriter (e : Encoder) (b : Bufio.Writer) : Encoder :=
  {| w := b; LineEnd := LineEnd e |}.

(** ["\n"] *)
Definition newline : bytes := [x0a].

Definition NewEncoder (under : bytes) : Encoder :=
  {| w := Bufio.NewWriter under; LineEnd := newline |}.

(** A method of [*Encoder] returns the encoder's new state with its error. *)
Definition writeLine (e : Encoder) (v : Reflect.value)
  : exec (Encoder * option error) :=
  r <- newValueEncoder (Some (typeOf v)) v ;;
  match r with
  | (_, Some err) => Done (e, Some err)
  | (b, None) =>
      let '(w', err) := Bufio.Write (w e) b in
      Done (withWriter e w', err)
  end.

(** The loop of [writeLines] from index [i] on; [n] is [v.Len()] and [elems]
    the elements [v.Index(i)], [v.Index(i+1)], ... *)
Fixpoint writeLinesFrom (e : Encoder) (lineEnd : bytes) (n i : Z)
    (elems : list Reflect.value) : exec (Encoder * option error) :=
  match elems with
  | [] => Done (e, None)
  | x :: rest =>
      r <- writeLine e x ;;
      match r with
      | (e1, Some err) => Done (e1, Some err)
      | (e1, None) =>
          if negb (i =? n - 1) then
            match Bufio.Write (w e1) lineEnd with
            | (w', Some err) => Done (withWriter e1 w', Some err)
            | (w', None) =>
                writeLinesFrom (withWriter e1 w') lineEnd n (i + 1) rest
            end
          else writeLinesFrom e1 lineEnd n (i + 1) rest
      end
  end.

(** The terminator [writeLines] uses: [e.LineEnd], or ["\n"] when that is
    empty. *)
Definition lineEnd (e : Encoder) : bytes :=
  if len (LineEnd e) =? 0 then newline else LineEnd e.

Definition writeLines (e : Encoder) (elems : list Reflect.value)
  : exec (Encoder * option error) :=
  writeLinesFrom e (lineEnd e) (Z.of_nat (length elems)) 0 elems.

(** [Encode]; the argument [None] is the nil interface. *)
Definition Encode (e : Encoder) (i : option Reflect.value)
  : exec (Encoder * option error) :=
  match i with
  | None => Done (e, None)
  | Some iv =>
      r <- match unwrap iv with
           | Some (VSlice _ elems) => writeLines e elems
           | _ => writeLine e iv
           end ;;
      match r with
      | (e1, Some err) => Done (e1, Some err)
      | (e1, None) =>
          let '(w', err) := Bufio.Flush (w e1) in
          Done (withWriter e1 w', err)
      end
  end.

(** [Marshal]: the result is [buff.Bytes()], the content of the
    [bytes.Buffer] under the encoder; a nil slice is the empty list. *)
Definition Marshal (v : option Reflect.value) : exec result :=
  let buff : bytes := [] in
  r <- Encode (NewEncoder buff) v ;;
  match r with
  | (_, Some err) => Done ([], Some err)
  | (e, None) => Done (Bufio.sink (w e), None)
  end.

End Encoders.
End Fixedwidth.

(* ================================================================= *)
(** ** Vocabulary of the properties *)

Module Layout.
Import Go Reflect Fixedwidth.

(** The invariant of an accepted layout that the line buffer relies on. *)
Definition positioned (s : fieldSpec) : Prop :=
  1 <= startPos s /\ startPos s <= endPos s /\ endPos s <= intMax.

(** The layout is made of Go [int]s, its bounds in order. *)
Definition ordered (s : fieldSpec) : Prop :=
  intMin <= startPos s /\ startPos s <= endPos s /\ endPos s <= intMax.

(** [endPos - startPos + 1] *)
Definition width (s : fieldSpec) : Z := endPos s - startPos s + 1.

(** Buffer index [p] (column [p + 1]) lies in the declared range of [s]. *)
Definition covers (s : fieldSpec) (p : nat) : Prop :=
  startPos s - 1 <= Z.of_nat p < endPos s.

(** [s] has a byte for buffer index [p]. *)
Definition writes (s : fieldSpec) (p : nat) : Prop :=
  covers s p /\ Z.of_nat p - (startPos s - 1) < len (value s).

(** The declared ranges of [a] and [b] share no column. *)
Definition disjoint (a b : fieldSpec) : Prop :=
  endPos a < startPos b \/ endPos b < startPos a.

(** [data[startPos-1 : endPos]], the part of a line that belongs to [s]. *)
Definition segment (data : bytes) (s : fieldSpec) : bytes :=
  firstn (Z.to_nat (width s)) (skipn (Z.to_nat (startPos s - 1)) data).

(** [n] is the largest [endPos] of [specs], or 0 when there is none. *)
Definition maxEndPos (specs : list fieldSpec) (n : Z) : Prop :=
  (specs = [] /\ n = 0) \/
  (exists s, In s specs /\ endPos s = n) /\
  (forall s, In s specs -> endPos s <= n).

(** Lines joined by a separator: between consecutive lines, not after the
    last. *)
Fixpoint joinLines (sep : bytes) (lines : list bytes) : bytes :=
  match lines with
  | [] => []
  | [l] => l
  | l :: rest => l ++ sep ++ joinLines sep rest
  end.

(** The type left after unwrapping the pointer layers that [leftpadChar]
    looks through. *)
Fixpoint leafType (t : rtype) : rtype :=
  if Implements t then t
  else
    match t with
    | TPtr _ elem => leafType elem
    | _ => t
    end.

Definition numeric (t : rtype) : bool :=
  match t with
  | TInt _ _ | TFloat _ _ => true
  | _ => false
  end.

(** The shapes the dispatcher has a conversion for. *)
Definition recognized (t : rtype) : bool :=
  Implements t ||
  match t with
  | TPtr _ _ | TInterface _ | TStruct _ | TString _ | TInt _ _ | TFloat _ _ =>
      true
  | _ => false
  end.

Definition isSlice (t : rtype) : bool :=
  match t with
  | TSlice _ => true
  | _ => false
  end.

(** A position declaration that is absent or malformed: no declaration, a
    wrong token count, a bound that is not numeric, or [end < start]. *)
Definition rejected (tag : string) : Prop :=
  let tokens := Split tag ","%char in
  tag = EmptyString \/
  (length tokens <> 2 /\ length tokens <> 3)%nat \/
  exists s e rest,
    tokens = s :: e :: rest /\
    (Atoi s = None \/ Atoi e = None \/
     exists a b, Atoi s = Some a /\ Atoi e = Some b /\ b < a).

(** Finite floats, and the sign bit of a float. *)
Definition finite (f : spec_float) : bool :=
  match f with
  | S754_zero _ | S754_finite _ _ _ => true
  | _ => false
  end.

(** A nil pointer or a nil interface value. *)
Definition isNil (v : Reflect.value) : bool :=
  match v with
  | VNilPtr _ _ | VInterface _ None => true
  | _ => false
  end.

(** The value of a finite float in hundredths, as a fraction [num / den]. *)
Definition hundredths (m : positive) (e : Z) : N * N :=
  if 0 <=? e then (Npos m * 100 * 2 ^ Z.to_N e, 1)%N
  else (Npos m * 100, 2 ^ Z.to_N (- e))%N.

Definition digit (d : N) : byte :=
  match d with
  | 0 => "0" | 1 => "1" | 2 => "2" | 3 => "3" | 4 => "4"
  | 5 => "5" | 6 => "6" | 7 => "7" | 8 => "8" | _ => "9"
  end%N%byte.

(** Fixed notation with two fraction digits: an optional minus sign, the
    integer part in canonical decimal, a point, two digits. *)
Definition fixed2 (neg : bool) (int : N) (d1 d2 : N) : bytes :=
  (if neg then ["-"%byte] else []) ++ formatUint int
    ++ ["."%byte; digit d1; digit d2].

(** The columns of a field taken alone: its recorded bytes cut at the
    width, then spaces up to the width. *)
Definition cell (s : fieldSpec) : bytes :=
  firstn (Z.to_nat (width s))
    (value s ++ repeat " "%byte (Z.to_nat (width s - len (value s)))).

(** Layouts that tile the columns from [a] up to, not including, [e]: each
    starts in the column after the end of the one before. *)
Inductive Tiles : Z -> list fieldSpec -> Z -> Prop :=
| TilesNil a : Tiles a [] a
| TilesCons a s rest e :
    startPos s = a ->
    Tiles (endPos s + 1) rest e ->
    Tiles a (s :: rest) e.

(** The number a run of decimal digits denotes, read most significant digit
    first onto the digits [acc] read so far. *)
Fixpoint bigEndian (d : Decimal.uint) (acc : N) : N :=
  match d with
  | Decimal.Nil => acc
  | Decimal.D0 r => bigEndian r (10 * acc)%N
  | Decimal.D1 r => bigEndian r (10 * acc + 1)%N
  | Decimal.D2 r => bigEndian r (10 * acc + 2)%N
  | Decimal.D3 r => bigEndian r (10 * acc + 3)%N
  | Decimal.D4 r => bigEndian r (10 * acc + 4)%N
  | Decimal.D5 r => bigEndian r (10 * acc + 5)%N
  | Decimal.D6 r => bigEndian r (10 * acc + 6)%N
  | Decimal.D7 r => bigEndian r (10 * acc + 7)%N
  | Decimal.D8 r => bigEndian r (10 * acc + 8)%N
  | Decimal.D9 r => bigEndian r (10 * acc + 9)%N
  end.

(** Two layouts with the same declared range. *)
Definition sameRange (a b : fieldSpec) : Prop :=
  startPos a = startPos b /\ endPos a = endPos b.

(** The tags of the fields of a struct, in declaration order. *)
Definition tagsOf (fields : list (StructField * Reflect.value)) : list string :=
  map (fun x => fixedTag (fst x)) fields.

(** The bytes recorded for a field: left-padded to the field length when the
    value is shorter and [leftpad] is set, the value itself otherwise. *)
Definition padded (spec : fieldSpec) (t : rtype) (b : bytes) : bytes :=
  if (len b <? fieldLength spec) && leftpad spec
  then repeat (leftpadChar spec t) (Z.to_nat (fieldLength spec - len b)) ++ b
  else b.

Section Loop.
Context {methods : TextMarshaler}.

(** What the loop of [structEncoder] appends for a run of fields that all
    encode: nothing for a field whose declaration is rejected, the padded
    layout for an accepted one. *)
Inductive Layouts : list (StructField * Reflect.value) -> list fieldSpec -> Prop :=
| LayoutsNil : Layouts [] []
| LayoutsSkip f fv rest specs :
    parseTag (fixedTag f) = None ->
    Layouts rest specs ->
    Layouts ((f, fv) :: rest) specs
| LayoutsField f fv rest specs spec b spec' :
    parseTag (fixedTag f) = Some spec ->
    newValueEncoder (Some (typeOf fv)) fv = Done (b, None) ->
    padField spec (typeOf fv) b = Done spec' ->
    Layouts rest specs ->
    Layouts ((f, fv) :: rest) (spec' :: specs).

(** Each element encodes to its line. *)
Inductive Lines : list Reflect.value -> list bytes -> Prop :=
| LinesNil : Lines [] []
| LinesCons x b rest lines :
    newValueEncoder (Some (typeOf x)) x = Done (b, None) ->
    Lines rest lines ->
    Lines (x :: rest) (b :: lines).

End Loop.

End Layout.

(* ================================================================= *)
(** ** Sample values *)

Module Samples.
Import Go Reflect Fixedwidth Layout.

Definition plain (n : string) : tinfo :=
  {| Name := n; implementsTextMarshaler := false |}.

Definition marshaler (n : string) : tinfo :=
  {| Name := n; implementsTextMarshaler := true |}.

(** A method set for the samples: a struct of a text and an error marshals
    to the bytes of the text, together with the error; nothing else has the
    method. *)
Definition sampleMarshalText (v : Reflect.value) : exec result :=
  match v with
  | VStruct _ [(_, VString _ s); (_, VInterface _ None)] =>
      Done (bytesOf s, None)
  | VStruct _ [(_, VString _ s); (_, VInterface _ (Some _))] =>
      Done (bytesOf s, Some (ForeignError "marshal error"))
  | _ => Panic
  end.

#[export] Instance sampleMethods : TextMarshaler :=
  {| MarshalText := sampleMarshalText |}.

Definition field (name tag : string) : StructField :=
  {| FieldName := name; fixedTag := tag |}.

Definition intType : rtype := TInt (plain "int") Int.
Definition stringType : rtype := TString (plain "string").

Definition int (i : Z) : Reflect.value := VInt (plain "int") Int i.
Definition text (s : string) : Reflect.value := VString (plain "string") s.
Definition float64 (f : spec_float) : Reflect.value :=
  VFloat (plain "float64") Float64 f.
Definition bool : Reflect.value := VOther (plain "bool") Bool.
Definition any (v : Reflect.value) : Reflect.value :=
  VInterface (plain "") (Some v).
Definition nilPtr (elem : rtype) : Reflect.value := VNilPtr (plain "") elem.

Definition record (fields : list (StructField * Reflect.value))
  : Reflect.value :=
  VStruct (plain "") fields.

Definition slice (elems : list Reflect.value) : Reflect.value :=
  VSlice (plain "") elems.

Definition spec (s e : Z) (pad : Datatypes.bool) (b : string) : fieldSpec :=
  {| startPos := s; endPos := e; leftpad := pad; value := bytesOf b |}.

(** [struct { F1, F2 interface{} }] with columns 1-5 and 6-10. *)
Definition pair (f1 f2 : Reflect.value) : Reflect.value :=
  VStruct (plain "H")
    [(field "F1" "1,5", any f1); (field "F2" "6,10", any f2)].

(** The record of the package documentation: ID in columns 1-5, FirstName
    in 6-15, LastName in 16-25, Grade in 26-30. *)
Definition person (id : Z) (first last : string) (grade : spec_float)
  : Reflect.value :=
  record [(field "ID" "1,5", int id);
          (field "FirstName" "6,15", text first);
          (field "LastName" "16,25", text last);
          (field "Grade" "26,30", float64 grade)].

(** 99.5 *)
Definition ninetyNineAndHalf : spec_float := S754_finite false 199 (-1).

End Samples.

(* ================================================================= *)
(** ** Facts about the runtime fragments *)

Module GoFacts.
Import Go.

Lemma wrap_id (z : Z) : intMin <= z <= intMax -> wrap z = z.
Proof.
  unfold wrap, intMin, intMax. intros H.
  rewrite Z.mod_small; lia.
Qed.

Lemma wrap_range (z : Z) : intMin <= wrap z <= intMax.
Proof.
  unfold wrap, intMin, intMax.
  pose proof (Z.mod_pos_bound (z + 2 ^ 63) (2 ^ 64) ltac:(lia)). lia.
Qed.

Lemma concat_repeat_one (A : Type) (c : A) (k : nat) :
  concat (repeat [c] k) = repeat c k.
Proof. induction k as [|k IH]; simpl; [reflexivity | now rewrite IH]. Qed.

Lemma Repeat_one (c : byte) (n : Z) :
  0 <= n -> Repeat [c] n = Done (repeat c (Z.to_nat n)).
Proof.
  intros H. unfold Repeat.
  destruct (Z.ltb_spec n 0); [lia|]. now rewrite concat_repeat_one.
Qed.

Lemma len_nonneg (b : bytes) : 0 <= len b.
Proof. unfold len. lia. Qed.

Lemma len_app (a b : bytes) : len (a ++ b) = len a + len b.
Proof. unfold len. rewrite length_app. lia. Qed.

Lemma len_repeat (c : byte) (k : nat) : len (repeat c k) = Z.of_nat k.
Proof. unfold len. now rewrite repeat_length. Qed.

Lemma nth_error_firstn_lt (A : Type) (l : list A) (n i : nat) :
  (i < n)%nat -> nth_error (firstn n l) i = nth_error l i.
Proof.
  intros H. rewrite nth_error_firstn.
  destruct (Nat.ltb_spec i n); [reflexivity | lia].
Qed.

Lemma copyAt_Done (dst : bytes) (lo hi : Z) (src : bytes) :
  0 <= lo -> lo <= hi -> hi <= len dst ->
  copyAt dst lo hi src = Done (copied dst lo hi src).
Proof.
  intros H1 H2 H3. unfold copyAt.
  destruct (Z.leb_spec 0 lo); [|lia].
  destruct (Z.leb_spec lo hi); [|lia].
  destruct (Z.leb_spec hi (len dst)); [|lia].
  reflexivity.
Qed.

Lemma copyAt_inv (dst : bytes) (lo hi : Z) (src out : bytes) :
  copyAt dst lo hi src = Done out ->
  0 <= lo /\ lo <= hi /\ hi <= len dst /\ out = copied dst lo hi src.
Proof.
  unfold copyAt.
  destruct (Z.leb_spec 0 lo); simpl; [|discriminate].
  destruct (Z.leb_spec lo hi); simpl; [|discriminate].
  destruct (Z.leb_spec hi (len dst)); simpl; [|discriminate].
  intros [= <-]. auto.
Qed.

Lemma copied_length (dst : bytes) (lo hi : Z) (src : bytes) :
  0 <= lo -> lo <= hi -> hi <= len dst ->
  length (copied dst lo hi src) = length dst.
Proof.
  intros H1 H2 H3. unfold copied, len in *.
  rewrite !length_app, !length_firstn, length_skipn. lia.
Qed.

(** Inside the copied window the byte comes from the source... *)
Lemma copied_inside (dst : bytes) (lo hi : Z) (src : bytes) (p : nat) :
  0 <= lo -> lo <= hi -> hi <= len dst ->
  lo <= Z.of_nat p < hi -> Z.of_nat p - lo < len src ->
  nth_error (copied dst lo hi src) p = nth_error src (p - Z.to_nat lo).
Proof.
  intros H1 H2 H3 H4 H5. unfold copied, len in *.
  rewrite nth_error_app2 by (rewrite length_firstn; lia).
  rewrite length_firstn.
  replace (Nat.min (Z.to_nat lo) (length dst)) with (Z.to_nat lo) by lia.
  rewrite nth_error_app1 by (rewrite length_firstn; lia).
  apply nth_error_firstn_lt; lia.
Qed.

(** ... and everywhere else the destination keeps its byte. *)
Lemma copied_outside (dst : bytes) (lo hi : Z) (src : bytes) (p : nat) :
  0 <= lo -> lo <= hi -> hi <= len dst ->
  ~ (lo <= Z.of_nat p < hi /\ Z.of_nat p - lo < len src) ->
  nth_error (copied dst lo hi src) p = nth_error dst p.
Proof.
  intros H1 H2 H3 H4. unfold copied, len in *.
  set (n := Nat.min (Z.to_nat (hi - lo)) (length src)).
  destruct (Nat.lt_ge_cases p (Z.to_nat lo)) as [Hlt|Hge].
  - rewrite nth_error_app1 by (rewrite length_firstn; lia).
    apply nth_error_firstn_lt; lia.
  - rewrite nth_error_app2 by (rewrite length_firstn; lia).
    rewrite length_firstn.
    replace (Nat.min (Z.to_nat lo) (length dst)) with (Z.to_nat lo) by lia.
    rewrite nth_error_app2 by (rewrite length_firstn; lia).
    rewrite length_firstn.
    replace (Nat.min n (length src)) with n by lia.
    rewrite nth_error_skipn. f_equal. lia.
Qed.

End GoFacts.

(* ================================================================= *)
(** ** The line buffer: [encodeSpecs] *)

Module LineFacts.
Import Go Reflect Fixedwidth Layout GoFacts.

Lemma positioned_ordered (s : fieldSpec) : positioned s -> ordered s.
Proof. unfold positioned, ordered, intMin. lia. Qed.

Lemma disjoint_not_writes (s s' : fieldSpec) (p : nat) :
  disjoint s s' -> covers s p -> ~ writes s' p.
Proof. unfold disjoint, writes, covers. lia. Qed.

(** *** The first loop *)

Lemma lineLength_fold (specs : list fieldSpec) (a : Z) :
  let n := fold_left step specs a in
  a <= n /\
  (forall s, In s specs -> endPos s <= n) /\
  (n = a \/ exists s, In s specs /\ endPos s = n).
Proof.
  revert a. induction specs as [|s specs IH]; intros a; simpl.
  - repeat split; auto; try lia.
  - destruct (IH (step a s)) as (H1 & H2 & H3).
    assert (Ha : a <= step a s /\ endPos s <= step a s
                 /\ (step a s = a \/ step a s = endPos s)).
    { unfold step. destruct (Z.gtb_spec (endPos s) a); lia. }
    repeat split.
    + lia.
    + intros s' [<-|Hin]; [lia | auto].
    + destruct H3 as [H3|(s' & Hin & H3)].
      * destruct Ha as (_ & _ & [Ha|Ha]); [left; lia|].
        right. exists s. split; [now left | lia].
      * right. exists s'. split; [now right | assumption].
Qed.

Lemma lineLength_nonneg (specs : list fieldSpec) : 0 <= lineLength specs.
Proof. apply (lineLength_fold specs 0). Qed.

Lemma lineLength_ge (specs : list fieldSpec) (s : fieldSpec) :
  In s specs -> endPos s <= lineLength specs.
Proof. apply (lineLength_fold specs 0). Qed.

Lemma lineLength_max (specs : list fieldSpec) :
  Forall positioned specs -> maxEndPos specs (lineLength specs).
Proof.
  intros Hpos. destruct specs as [|s0 specs]; [left; auto|].
  right. destruct (lineLength_fold (s0 :: specs) 0) as (_ & Hge & Hex).
  split; [|exact Hge].
  destruct Hex as [H0|Hex]; [|exact Hex].
  exfalso. pose proof (Hge s0 (or_introl eq_refl)) as Hs0.
  apply Forall_inv in Hpos. unfold positioned in Hpos.
  unfold lineLength in Hs0. lia.
Qed.

(** *** The second loop *)

Lemma lo_positioned (s : fieldSpec) :
  positioned s -> wrap (startPos s - 1) = startPos s - 1.
Proof.
  unfold positioned. intros H. apply wrap_id. unfold intMin, intMax in *. lia.
Qed.

Lemma copySpecs_Done (specs : list fieldSpec) : forall data : bytes,
  Forall positioned specs ->
  (forall s, In s specs -> endPos s <= len data) ->
  exists out,
    copySpecs data specs = Done out /\
    length out = length data /\
    (forall p, (forall s, In s specs -> ~ writes s p) ->
               nth_error out p = nth_error data p) /\
    (forall l1 s l2 p,
        specs = l1 ++ s :: l2 -> writes s p ->
        (forall s', In s' l2 -> ~ writes s' p) ->
        nth_error out p = nth_error (value s) (p - Z.to_nat (startPos s - 1))).
Proof.
  induction specs as [|s0 specs IH]; intros data Hpos Hlen.
  - exists data. repeat split; auto.
    intros [|? ?] ? ? ? H; discriminate H.
  - pose proof (Forall_inv Hpos) as Hs0. apply Forall_inv_tail in Hpos.
    assert (Hb : 0 <= startPos s0 - 1 /\ startPos s0 - 1 <= endPos s0
                 /\ endPos s0 <= len data).
    { unfold positioned in Hs0. specialize (Hlen s0 (or_introl eq_refl)). lia. }
    destruct Hb as (Hb1 & Hb2 & Hb3).
    simpl. rewrite (lo_positioned Hs0), copyAt_Done by assumption. simpl.
    set (data' := copied data (startPos s0 - 1) (endPos s0) (value s0)).
    assert (Hlen' : length data' = length data)
      by (apply copied_length; assumption).
    destruct (IH data' Hpos) as (out & Hout & Hl & Hun & Hlast).
    { intros s Hin. unfold len. rewrite Hlen'. apply Hlen. now right. }
    exists out. repeat split.
    + exact Hout.
    + congruence.
    + intros p Hp. rewrite Hun by (intros s Hin; apply Hp; now right).
      apply copied_outside; try assumption.
      specialize (Hp s0 (or_introl eq_refl)). unfold writes, covers in Hp. lia.
    + intros l1 s l2 p Heq Hw Hl2. destruct l1 as [|s1 l1]; simpl in Heq.
      * injection Heq as -> ->. rewrite Hun by assumption.
        apply copied_inside; try assumption;
          unfold writes, covers in Hw; lia.
      * injection Heq as -> ->. eapply Hlast; eauto.
Qed.

(** [encodeSpecs], byte by byte. *)
Lemma encodeSpecs_Done (specs : list fieldSpec) :
  Forall positioned specs ->
  exists out,
    encodeSpecs specs = Done out /\
    len out = lineLength specs /\
    (forall p, (p < length out)%nat ->
               (forall s, In s specs -> ~ writes s p) ->
               nth_error out p = Some " "%byte) /\
    (forall l1 s l2 p,
        specs = l1 ++ s :: l2 -> writes s p ->
        (forall s', In s' l2 -> ~ writes s' p) ->
        nth_error out p = nth_error (value s) (p - Z.to_nat (startPos s - 1))).
Proof.
  intros Hpos. unfold encodeSpecs.
  pose proof (lineLength_nonneg specs) as Hnn.
  rewrite Repeat_one by assumption. simpl.
  set (data := repeat " "%byte (Z.to_nat (lineLength specs))).
  destruct (@copySpecs_Done specs data Hpos) as (out & Hout & Hl & Hun & Hlast).
  { intros s Hin. unfold data. rewrite len_repeat.
    pose proof (lineLength_ge specs s Hin). lia. }
  exists out. repeat split.
  - exact Hout.
  - unfold len. rewrite Hl. unfold data. rewrite repeat_length. lia.
  - intros p Hp Hfree. rewrite Hun by assumption.
    apply nth_error_repeat. rewrite Hl in Hp. unfold data in Hp.
    now rewrite repeat_length in Hp.
  - exact Hlast.
Qed.

(** *** The segment of one field *)

Lemma nth_error_segment (data : bytes) (s : fieldSpec) (i : nat) :
  nth_error (segment data s) i =
  if (i <? Z.to_nat (width s))%nat
  then nth_error data (Z.to_nat (startPos s - 1) + i) else None.
Proof. unfold segment. now rewrite nth_error_firstn, nth_error_skipn. Qed.

(** The segment of a field that no later field overlaps starts with the
    field's bytes, cut at the width; if no earlier field overlaps it either,
    the rest of it is spaces. *)
Lemma segment_bytes (l1 l2 : list fieldSpec) (s : fieldSpec) (out : bytes) :
  Forall positioned (l1 ++ s :: l2) ->
  encodeSpecs (l1 ++ s :: l2) = Done out ->
  Forall (disjoint s) l2 ->
  (width s <= len (value s) \/ Forall (disjoint s) l1) ->
  segment out s =
  firstn (Z.to_nat (width s))
    (value s ++ repeat " "%byte (Z.to_nat (width s - len (value s)))).
Proof.
  intros Hpos Henc Hd2 Hd1.
  destruct (encodeSpecs_Done Hpos) as (out' & Henc' & Hlen & Hfree & Hlast).
  rewrite Henc in Henc'. injection Henc' as <-.
  assert (Hs : positioned s).
  { rewrite Forall_forall in Hpos. apply Hpos, in_elt. }
  assert (Hend : endPos s <= len out).
  { rewrite Hlen. apply lineLength_ge, in_elt. }
  unfold positioned in Hs. unfold len in Hend.
  apply nth_error_ext. intros i. rewrite nth_error_segment.
  rewrite nth_error_firstn.
  destruct (Nat.ltb_spec i (Z.to_nat (width s))) as [Hi|Hi]; [|reflexivity].
  unfold width in *.
  set (p := (Z.to_nat (startPos s - 1) + i)%nat).
  assert (Hcov : covers s p) by (unfold covers, p; lia).
  assert (Hl2 : forall s', In s' l2 -> ~ writes s' p).
  { intros s' Hin. rewrite Forall_forall in Hd2.
    eapply disjoint_not_writes; eauto. }
  destruct (Z.lt_ge_cases (Z.of_nat i) (len (value s))) as [Hin|Hout].
  - rewrite (Hlast l1 s l2 p eq_refl) by (unfold writes, covers, p in *; auto; lia).
    rewrite nth_error_app1 by (unfold len in Hin; lia).
    f_equal. unfold p. lia.
  - destruct Hd1 as [Hfull|Hd1]; [lia|].
    rewrite Hfree.
    + rewrite nth_error_app2 by (unfold len in Hout; lia).
      symmetry. apply nth_error_repeat. unfold len in *. lia.
    + unfold p. lia.
    + intros s' Hin'. apply in_app_or in Hin'.
      destruct Hin' as [Hin'|[<-|Hin']].
      * rewrite Forall_forall in Hd1. eapply disjoint_not_writes; eauto.
      * unfold writes, p. lia.
      * auto.
Qed.

End LineFacts.

(* ================================================================= *)
(** ** The struct loop: [structEncoder] *)

Module StructFacts.
Import Go Reflect Fixedwidth Layout GoFacts LineFacts.

Lemma fieldLength_width (s : fieldSpec) :
  positioned s -> fieldLength s = width s.
Proof.
  unfold positioned, fieldLength, width. intros H.
  rewrite (@wrap_id (endPos s - startPos s)) by (unfold intMin, intMax in *; lia).
  apply wrap_id. unfold intMin, intMax in *. lia.
Qed.

Lemma firstn_repeat (c : byte) (k n : nat) :
  (k <= n)%nat -> firstn k (repeat c n) = repeat c k.
Proof.
  intros H. replace n with (k + (n - k))%nat by lia.
  rewrite repeat_app, firstn_app, repeat_length, Nat.sub_diag. simpl.
  rewrite firstn_all2 by (rewrite repeat_length; lia).
  apply List.app_nil_r.
Qed.

Lemma padField_Done (spec : fieldSpec) (t : rtype) (b : bytes) :
  padField spec t b = Done (withValue spec (padded spec t b)).
Proof.
  unfold padField, padded.
  destruct (Z.ltb_spec (len b) (fieldLength spec)) as [Hlt|Hge]; simpl;
    [|reflexivity].
  destruct (leftpad spec); [|reflexivity].
  pose proof (len_nonneg b) as Hb.
  pose proof (wrap_range (wrap (endPos spec - startPos spec) + 1)) as Hr.
  fold (fieldLength spec) in Hr.
  rewrite Repeat_one by lia. simpl.
  rewrite wrap_id by (unfold intMin in *; lia).
  rewrite len_repeat, Z2Nat.id by lia.
  rewrite copyAt_Done by (rewrite ?len_repeat; lia).
  simpl. do 2 f_equal. unfold copied, len in *.
  replace (Z.to_nat (fieldLength spec - (fieldLength spec - Z.of_nat (length b))))
    with (length b) by lia.
  rewrite Nat.min_id, firstn_all, firstn_repeat by lia.
  rewrite skipn_all2 by (rewrite repeat_length; lia).
  now rewrite List.app_nil_r.
Qed.

Lemma padded_short_leftpad (spec : fieldSpec) (t : rtype) (b : bytes) :
  positioned spec -> len b < width spec -> leftpad spec = true ->
  padded spec t b
  = repeat (leftpadChar spec t) (Z.to_nat (width spec - len b)) ++ b.
Proof.
  intros Hp Hlt Hpad. unfold padded.
  rewrite (fieldLength_width Hp), Hpad.
  destruct (Z.ltb_spec (len b) (width spec)); [reflexivity | lia].
Qed.

Lemma padded_unpadded (spec : fieldSpec) (t : rtype) (b : bytes) :
  positioned spec -> width spec <= len b \/ leftpad spec = false ->
  padded spec t b = b.
Proof.
  intros Hp H. unfold padded. rewrite (fieldLength_width Hp).
  destruct H as [H| ->]; [|now rewrite andb_false_r].
  destruct (Z.ltb_spec (len b) (width spec)); [lia | reflexivity].
Qed.

(** The pad character depends on the leaf type alone. *)
Lemma leftpadChar_leaf (f : fieldSpec) (t : rtype) :
  leftpadChar f t =
  if negb (Implements (leafType t)) && numeric (leafType t)
  then "0"%byte else " "%byte.
Proof.
  induction t as [| | |ti elem IH| | | |]; simpl;
    match goal with
    | |- context [Implements ?x] => destruct (Implements x) eqn:E
    end; simpl; rewrite ?E; simpl; try reflexivity.
  exact IH.
Qed.

(** *** [parseTag] (as modelled) *)

Lemma Atoi_range (s : string) (z : Z) :
  Atoi s = Some z -> intMin <= z <= intMax.
Proof.
  unfold Atoi.
  destruct (match s with
            | String "-"%char r => (true, r)
            | String "+"%char r => (false, r)
            | _ => (false, s)
            end) as [neg body].
  destruct body as [|c body]; [discriminate|].
  destruct (parseDigits (String c body) 0) as [n|]; [|discriminate].
  set (v := if neg then - Z.of_N n else Z.of_N n).
  destruct (Z.leb_spec intMin v); simpl; [|discriminate].
  destruct (Z.leb_spec v intMax); simpl; [|discriminate].
  intros [= <-]. lia.
Qed.

Lemma layout_ordered (s e : string) (pad : bool) (spec : fieldSpec) :
  layout s e pad = Some spec -> ordered spec /\ value spec = [].
Proof.
  unfold layout.
  destruct (Atoi s) as [a|] eqn:Ha; [|discriminate].
  destruct (Atoi e) as [b|] eqn:Hb; [|discriminate].
  destruct (Z.ltb_spec b a); [discriminate|].
  intros [= <-]. apply Atoi_range in Ha, Hb.
  unfold ordered. simpl. split; [lia | reflexivity].
Qed.

Lemma parseTag_ordered (tag : string) (spec : fieldSpec) :
  parseTag tag = Some spec -> ordered spec /\ value spec = [].
Proof.
  unfold parseTag.
  destruct (Split tag ","%char) as [|s [|e [|m [|? ?]]]]; try discriminate;
    apply layout_ordered.
Qed.

(** What the spec calls absent or malformed, [parseTag] rejects. *)
Lemma rejected_parseTag (tag : string) :
  rejected tag -> parseTag tag = None.
Proof.
  unfold rejected, parseTag.
  intros [->|[[H2 H3]|(s & e & rest & -> & Hb)]]; [reflexivity| |].
  - destruct (Split tag ","%char) as [|s [|e [|m [|? ?]]]];
      simpl in *; congruence.
  - assert (Hl : forall pad, layout s e pad = None).
    { intros pad. unfold layout.
      destruct Hb as [->|[Hb|(a & b & -> & -> & Hlt)]].
      - reflexivity.
      - rewrite Hb. now destruct (Atoi s).
      - destruct (Z.ltb_spec b a); [reflexivity | lia]. }
    destruct rest as [|m [|? ?]]; auto.
Qed.

Section Loop.
Context {methods : TextMarshaler}.

Lemma Layouts_app (a b : list (StructField * Reflect.value))
    (la lb : list fieldSpec) :
  Layouts a la -> Layouts b lb -> Layouts (a ++ b) (la ++ lb).
Proof.
  induction 1; intros Hb; simpl;
    [assumption | apply LayoutsSkip | eapply LayoutsField]; eauto.
Qed.

Lemma Layouts_ordered (fields : list (StructField * Reflect.value))
    (specs : list fieldSpec) :
  Layouts fields specs -> Forall ordered specs.
Proof.
  induction 1 as [| |f fv rest specs spec b spec' Htag Henc Hpad _ IH];
    [constructor | assumption |].
  constructor; [|assumption].
  rewrite padField_Done in Hpad. injection Hpad as <-.
  apply parseTag_ordered in Htag. exact (proj1 Htag).
Qed.

(** A run of fields that encode leaves the loop with their layouts
    appended. *)
Lemma structFields_Layouts (fields : list (StructField * Reflect.value))
    (specs : list fieldSpec) :
  Layouts fields specs ->
  forall rest acc,
    structFields newValueEncoder (fields ++ rest) acc
    = structFields newValueEncoder rest (acc ++ specs).
Proof.
  induction 1 as [| f fv more specs Htag _ IH
                  | f fv more specs spec b spec' Htag Henc Hpad _ IH];
    intros rest acc; simpl.
  - now rewrite List.app_nil_r.
  - rewrite Htag. apply IH.
  - rewrite Htag, Henc. simpl. rewrite Hpad. simpl.
    rewrite IH, <- List.app_assoc. reflexivity.
Qed.

Lemma structEncoder_Layouts (ti : tinfo)
    (fields : list (StructField * Reflect.value)) (specs : list fieldSpec) :
  implementsTextMarshaler ti = false ->
  Layouts fields specs ->
  newValueEncoder (Some (TStruct ti)) (VStruct ti fields)
  = (data <- encodeSpecs specs ;; Done (data, None)).
Proof.
  intros Htm HL. simpl. unfold Implements. simpl. rewrite Htm.
  pose proof (structFields_Layouts HL [] []) as H.
  rewrite List.app_nil_r in H. exact H.
Qed.

(** A field whose declaration is rejected leaves no trace. *)
Lemma structFields_skip (pre post : list (StructField * Reflect.value))
    (f : StructField) (fv : Reflect.value) :
  parseTag (fixedTag f) = None ->
  forall acc,
    structFields newValueEncoder (pre ++ (f, fv) :: post) acc
    = structFields newValueEncoder (pre ++ post) acc.
Proof.
  intros Htag. induction pre as [|[g gv] pre IH]; intros acc; simpl.
  - now rewrite Htag.
  - destruct (parseTag (fixedTag g)); [|apply IH].
    destruct (newValueEncoder _ gv) as [[b [err|]]|]; simpl; try reflexivity.
    destruct (padField _ _ b); simpl; [apply IH | reflexivity].
Qed.

Lemma Layouts_rejected (fields : list (StructField * Reflect.value)) :
  Forall (fun x => rejected (fixedTag (fst x))) fields ->
  Layouts fields [].
Proof.
  induction 1 as [|[f fv] rest Hf _ IH]; [constructor|].
  apply LayoutsSkip; [apply rejected_parseTag; exact Hf | exact IH].
Qed.

(** An accepted field whose value fails to encode ends the loop with that
    error, whatever follows it. *)
Lemma structFields_error (pre post : list (StructField * Reflect.value))
    (l1 : list fieldSpec) (f : StructField) (fv : Reflect.value)
    (spec : fieldSpec) (b : bytes) (err : error) :
  Layouts pre l1 ->
  parseTag (fixedTag f) = Some spec ->
  newValueEncoder (Some (typeOf fv)) fv = Done (b, Some err) ->
  forall acc,
    structFields newValueEncoder (pre ++ (f, fv) :: post) acc
    = Done ([], Some err).
Proof.
  intros HL Htag Henc acc. rewrite (structFields_Layouts HL).
  simpl. now rewrite Htag, Henc.
Qed.

Lemma Layouts_positioned (fields : list (StructField * Reflect.value))
    (specs : list fieldSpec) :
  Layouts fields specs ->
  Forall (fun s => 1 <= startPos s) specs ->
  Forall positioned specs.
Proof.
  intros HL Hpos. apply Layouts_ordered in HL.
  rewrite Forall_forall in *. intros s Hin.
  specialize (HL s Hin). specialize (Hpos s Hin).
  unfold ordered, positioned in *. lia.
Qed.

(** A struct whose accepted layouts all start at column 1 or later encodes
    to a line. *)
Lemma struct_line (ti : tinfo) (fields : list (StructField * Reflect.value))
    (specs : list fieldSpec) :
  implementsTextMarshaler ti = false ->
  Layouts fields specs ->
  Forall (fun s => 1 <= startPos s) specs ->
  exists out,
    newValueEncoder (Some (TStruct ti)) (VStruct ti fields) = Done (out, None)
    /\ encodeSpecs specs = Done out.
Proof.
  intros Htm HL Hpos.
  destruct (encodeSpecs_Done (Layouts_positioned HL Hpos)) as (out & Hout & _).
  exists out. split; [|exact Hout].
  rewrite (structEncoder_Layouts _ Htm HL), Hout. reflexivity.
Qed.

(** The segment of an accepted field that no other accepted field overlaps:
    its recorded bytes, cut at the width, then spaces. *)
Lemma field_segment (ti : tinfo) (pre post : list (StructField * Reflect.value))
    (f : StructField) (fv : Reflect.value) (l1 l2 : list fieldSpec)
    (spec : fieldSpec) (b : bytes) :
  implementsTextMarshaler ti = false ->
  Layouts pre l1 -> Layouts post l2 ->
  parseTag (fixedTag f) = Some spec ->
  newValueEncoder (Some (typeOf fv)) fv = Done (b, None) ->
  Forall (fun s => 1 <= startPos s) (l1 ++ spec :: l2) ->
  Forall (disjoint spec) (l1 ++ l2) ->
  positioned spec /\
  exists out,
    newValueEncoder (Some (TStruct ti)) (VStruct ti (pre ++ (f, fv) :: post))
    = Done (out, None) /\
    segment out spec =
    firstn (Z.to_nat (width spec))
      (padded spec (typeOf fv) b
         ++ repeat " "%byte
              (Z.to_nat (width spec - len (padded spec (typeOf fv) b)))).
Proof.
  intros Htm H1 H2 Htag Henc Hpos Hdis.
  set (spec' := withValue spec (padded spec (typeOf fv) b)).
  assert (HL : Layouts (pre ++ (f, fv) :: post) (l1 ++ spec' :: l2)).
  { apply Layouts_app; [assumption|].
    eapply LayoutsField; eauto. apply padField_Done. }
  assert (Hpos' : Forall (fun s => 1 <= startPos s) (l1 ++ spec' :: l2)).
  { rewrite Forall_app in *. destruct Hpos as [Ha Hb]. split; [assumption|].
    inversion Hb; subst. now constructor. }
  pose proof (Layouts_positioned HL Hpos') as Hall.
  assert (Hs : positioned spec).
  { rewrite Forall_forall in Hall. exact (Hall spec' (in_elt _ _ _)). }
  split; [exact Hs|].
  destruct (struct_line _ Htm HL Hpos') as (out & Hout & Henc').
  exists out. split; [exact Hout|].
  rewrite Forall_app in Hdis. destruct Hdis as [Hd1 Hd2].
  exact (@segment_bytes l1 l2 spec' out Hall Henc' Hd2 (or_intror Hd1)).
Qed.

End Loop.

End StructFacts.

(* ================================================================= *)
(** ** The record writer: [writeLine], [writeLines], [Encode] *)

Module WriterFacts.
Import Go Reflect Fixedwidth Layout GoFacts.

Lemma Write_written (b : Bufio.Writer) (p : bytes) :
  snd (Bufio.Write b p) = None /\
  Bufio.written (fst (Bufio.Write b p)) = Bufio.written b ++ p.
Proof.
  unfold Bufio.Write, Bufio.written.
  destruct (len p <=? Bufio.Available b); simpl.
  { split; [reflexivity | now rewrite List.app_assoc]. }
  destruct (Bufio.Buffered b =? 0) eqn:E; simpl.
  { split; [reflexivity|].
    apply Z.eqb_eq in E. unfold Bufio.Buffered, len in E.
    destruct (Bufio.buf b); [|simpl in E; lia].
    now rewrite !List.app_nil_r. }
  set (n := Z.to_nat (Bufio.Available b)).
  destruct (len (skipn n p) <=? Bufio.size); simpl;
    (split; [reflexivity|]);
    rewrite ?List.app_nil_r, <- !List.app_assoc, firstn_skipn; reflexivity.
Qed.

Section Writer.
Context {methods : TextMarshaler}.

Lemma writeLine_ok (e : Encoder) (x : Reflect.value) (b : bytes) :
  newValueEncoder (Some (typeOf x)) x = Done (b, None) ->
  exists e',
    writeLine e x = Done (e', None) /\
    LineEnd e' = LineEnd e /\
    Bufio.written (w e') = Bufio.written (w e) ++ b.
Proof.
  intros H. unfold writeLine. rewrite H. simpl.
  destruct (Write_written (w e) b) as [H1 H2].
  destruct (Bufio.Write (w e) b) as [w' err]. simpl in *. subst err.
  eexists. split; [reflexivity|]. split; [reflexivity | exact H2].
Qed.

Lemma writeLine_err (e : Encoder) (x : Reflect.value) (b : bytes)
    (err : error) :
  newValueEncoder (Some (typeOf x)) x = Done (b, Some err) ->
  writeLine e x = Done (e, Some err).
Proof. intros H. unfold writeLine. now rewrite H. Qed.

Lemma writeTerminator (e : Encoder) (term : bytes) :
  exists w',
    Bufio.Write (w e) term = (w', None) /\
    Bufio.written w' = Bufio.written (w e) ++ term.
Proof.
  destruct (Write_written (w e) term) as [H1 H2].
  destruct (Bufio.Write (w e) term) as [w' err]. simpl in *. subst err.
  now exists w'.
Qed.

(** All the lines of a run that encodes, joined by the terminator. *)
Lemma writeLinesFrom_ok (term : bytes) (n : Z) (elems : list Reflect.value)
    (lines : list bytes) :
  Lines elems lines ->
  forall (e : Encoder) (i : Z),
    i + Z.of_nat (length elems) = n ->
    exists e',
      writeLinesFrom e term n i elems = Done (e', None) /\
      LineEnd e' = LineEnd e /\
      Bufio.written (w e') = Bufio.written (w e) ++ joinLines term lines.
Proof.
  induction 1 as [|x b rest lines Hx HL IH]; intros e i Hn.
  - exists e. simpl. now rewrite List.app_nil_r.
  - destruct (writeLine_ok e x Hx) as (e1 & H1 & HE1 & HW1).
    cbn [writeLinesFrom]. rewrite H1. cbn [bind].
    cbn [length] in Hn.
    destruct (Z.eqb_spec i (n - 1)) as [Hlast|Hmore]; cbn [negb].
    + assert (rest = []) by (destruct rest; [reflexivity | simpl in Hn; lia]).
      subst rest. inversion HL; subst. exists e1. simpl.
      repeat split; assumption.
    + destruct (writeTerminator e1 term) as (w' & HWt & HWw).
      rewrite HWt.
      destruct (IH (withWriter e1 w') (i + 1)) as (e' & H' & HE' & HW');
        [lia|].
      exists e'. split; [exact H'|]. split; [simpl in HE'; congruence|].
      rewrite HW'. simpl w. rewrite HWw, HW1.
      assert (Hr : rest <> []) by (intros ->; simpl in Hn; lia).
      destruct lines as [|l lines]; [exfalso; apply Hr; now inversion HL|].
      cbn [joinLines]. now rewrite <- !List.app_assoc.
Qed.

(** A failing element ends the loop: what follows it is not looked at, and
    the lines before it were each written with their terminator. *)
Lemma writeLinesFrom_err (term : bytes) (bad : Reflect.value) (b : bytes)
    (err : error) (pre : list Reflect.value) (lines : list bytes) :
  newValueEncoder (Some (typeOf bad)) bad = Done (b, Some err) ->
  Lines pre lines ->
  forall (e : Encoder) (n i : Z) (post : list Reflect.value),
    i + Z.of_nat (length pre) < n ->
    exists e',
      writeLinesFrom e term n i (pre ++ bad :: post) = Done (e', Some err) /\
      Bufio.written (w e')
      = Bufio.written (w e) ++ concat (map (fun l => l ++ term) lines) /\
      forall n' post',
        i + Z.of_nat (length pre) < n' ->
        writeLinesFrom e term n' i (pre ++ bad :: post') = Done (e', Some err).
Proof.
  intros Hbad. induction 1 as [|x bx rest lines Hx HL IH];
    intros e n i post Hn.
  - exists e. simpl. rewrite (writeLine_err e bad Hbad). simpl.
    rewrite List.app_nil_r. auto.
  - destruct (writeLine_ok e x Hx) as (e1 & H1 & HE1 & HW1).
    destruct (writeTerminator e1 term) as (w' & HWt & HWw).
    cbn [length] in Hn.
    destruct (IH (withWriter e1 w') n (i + 1) post) as (e' & H' & HW' & Hind);
      [lia|].
    exists e'. repeat split.
    + cbn [app writeLinesFrom]. rewrite H1. cbn [bind].
      destruct (Z.eqb_spec i (n - 1)); [lia|]. cbn [negb].
      now rewrite HWt.
    + rewrite HW'. simpl. rewrite HWw, HW1. now rewrite <- !List.app_assoc.
    + intros n' post' Hn'. cbn [app writeLinesFrom]. rewrite H1. cbn [bind].
      cbn [length] in Hn'.
      destruct (Z.eqb_spec i (n' - 1)); [lia|]. cbn [negb].
      rewrite HWt. apply Hind. lia.
Qed.

End Writer.

End WriterFacts.

(* ================================================================= *)
(** ** Decimal text: [Itoa] and [FormatFloat] *)

Module StrconvFacts.
Import Go Layout.

(** The digits [formatUint] writes are the canonical decimal numeral of the
    number: no leading zero other than the numeral 0 itself. *)
Lemma formatUint_canonical (n : N) :
  exists d : Decimal.uint,
    formatUint n = digitBytes d /\ Decimal.unorm d = d /\ N.of_uint d = n.
Proof.
  exists (N.to_uint n). split; [reflexivity|]. split.
  - pose proof (DecimalN.Unsigned.to_of (N.to_uint n)) as H.
    rewrite DecimalN.Unsigned.of_to in H. now symmetry.
  - apply DecimalN.Unsigned.of_to.
Qed.

Lemma formatUint_digit (k : N) : (k < 10)%N -> formatUint k = [digit k].
Proof.
  intros H.
  assert (E : (k = 0 \/ k = 1 \/ k = 2 \/ k = 3 \/ k = 4 \/ k = 5 \/ k = 6
               \/ k = 7 \/ k = 8 \/ k = 9)%N) by lia.
  repeat (destruct E as [->|E]; [reflexivity|]). now subst k.
Qed.

Lemma fracDigits_two (n : N) :
  (n < 100)%N -> fracDigits 2 n = [digit (n / 10); digit (n mod 10)].
Proof.
  intros H. cbn [fracDigits app].
  assert (H10 : (n / 10 < 10)%N) by (apply N.Div0.div_lt_upper_bound; lia).
  rewrite (N.mod_small (n / 10) 10) by assumption.
  rewrite !formatUint_digit by (try assumption; apply N.mod_lt; lia).
  reflexivity.
Qed.

(** The [%.2f] layout is the fixed notation of the scaled value. *)
Lemma fmtF_two (neg : bool) (k : N) :
  fmtF neg k 2 = fixed2 neg (k / 100) (k mod 100 / 10) (k mod 10).
Proof.
  unfold fmtF, fixed2. change (10 ^ N.of_nat 2)%N with 100%N.
  rewrite fracDigits_two by (apply N.mod_lt; lia).
  replace ((k mod 100) mod 10)%N with (k mod 10)%N; [reflexivity|].
  change 100%N with (10 * 10)%N.
  rewrite N.Div0.mod_mul_r, N.mul_comm, N.Div0.mod_add.
  now rewrite N.Div0.mod_mod.
Qed.

(** [scaledRound] is a nearest integer to the value in hundredths: the two
    differ by at most one half. *)
Lemma scaledRound_nearest (m : positive) (e : Z) :
  let k := scaledRound m e 2 in
  let '(num, den) := hundredths m e in
  (2 * (k * den) <= 2 * num + den /\ 2 * num <= 2 * (k * den) + den)%N.
Proof.
  unfold scaledRound, hundredths. change (10 ^ N.of_nat 2)%N with 100%N.
  destruct (Z.leb_spec 0 e); [lia|].
  set (n := (N.pos m * 100)%N). set (d := (2 ^ Z.to_N (- e))%N).
  assert (Hd : (d <> 0)%N) by (apply N.pow_nonzero; lia).
  pose proof (N.div_mod n d Hd) as Hn.
  pose proof (N.mod_lt n d Hd) as Hr.
  set (q := (n / d)%N) in *. set (r := (n mod d)%N) in *.
  destruct (N.ltb_spec d (2 * r)); [cbv beta iota zeta; nia|].
  destruct (N.eqb_spec (2 * r) d); cbn [andb]; [destruct (N.odd q)|];
    cbv beta iota zeta; nia.
Qed.

Lemma digits_recompose (k : N) :
  (100 * (k / 100) + 10 * (k mod 100 / 10) + k mod 10 = k)%N.
Proof.
  pose proof (N.div_mod k 100 ltac:(lia)) as H1.
  pose proof (N.div_mod (k mod 100) 10 ltac:(lia)) as H2.
  replace (k mod 10)%N with ((k mod 100) mod 10)%N; [lia|].
  change 100%N with (10 * 10)%N.
  rewrite N.Div0.mod_mul_r, N.mul_comm, N.Div0.mod_add.
  now rewrite N.Div0.mod_mod.
Qed.

Lemma Itoa_canonical (i : Z) :
  exists d : Decimal.uint,
    Itoa i = (if i <? 0 then ["-"%byte] else []) ++ digitBytes d /\
    Decimal.unorm d = d /\ N.of_uint d = Z.abs_N i.
Proof.
  unfold Itoa. destruct (Z.ltb_spec i 0).
  - destruct (formatUint_canonical (Z.to_N (- i))) as (d & H1 & H2 & H3).
    exists d. rewrite H1. repeat split; auto. rewrite H3. lia.
  - destruct (formatUint_canonical (Z.to_N i)) as (d & H1 & H2 & H3).
    exists d. rewrite H1. repeat split; auto. rewrite H3. lia.
Qed.

End StrconvFacts.

(* ================================================================= *)
(** ** Properties of the encoder *)

Import Go Reflect Fixedwidth Layout.
Import GoFacts LineFacts StructFacts WriterFacts StrconvFacts.

Section Properties.
Context {methods : TextMarshaler}.

(** C1. A struct whose accepted fields encode becomes a line, with no error:
    the line is as long as the largest [endPos] among the accepted layouts
    (empty when there is none), every position outside the declared ranges
    holds a space, and a field whose recorded bytes are at least as long as
    its width contributes exactly their leading [width] bytes (seen in the
    line when no later field overlaps it). *)
Theorem struct_line_buffer (ti : tinfo)
    (fields : list (StructField * Reflect.value)) (specs : list fieldSpec) :
  implementsTextMarshaler ti = false ->
  Layouts fields specs ->
  Forall (fun s => 1 <= startPos s) specs ->
  exists out,
    newValueEncoder (Some (TStruct ti)) (VStruct ti fields) = Done (out, None)
    /\ maxEndPos specs (len out)
    /\ (forall p, (p < length out)%nat ->
                  (forall s, In s specs -> ~ covers s p) ->
                  nth_error out p = Some " "%byte)
    /\ (forall l1 s l2,
          specs = l1 ++ s :: l2 ->
          width s <= len (value s) ->
          Forall (disjoint s) l2 ->
          segment out s = firstn (Z.to_nat (width s)) (value s)).
Proof.
  intros Htm HL Hpos.
  pose proof (Layouts_positioned HL Hpos) as Hall.
  destruct (struct_line _ Htm HL Hpos) as (out & Hout & Henc).
  destruct (encodeSpecs_Done Hall) as (out' & Henc' & Hlen & Hfree & _).
  rewrite Henc in Henc'. injection Henc' as <-.
  exists out. split; [exact Hout|]. split; [|split].
  - rewrite Hlen. now apply lineLength_max.
  - intros p Hp Hcov. apply Hfree; [exact Hp|].
    intros s Hin [Hc _]. exact (Hcov s Hin Hc).
  - intros l1 s l2 -> Hfull Hdis.
    rewrite (@segment_bytes l1 l2 s out Hall Henc Hdis (or_introl Hfull)).
    replace (Z.to_nat (width s - len (value s))) with 0%nat by lia.
    simpl. now rewrite List.app_nil_r.
Qed.

(** C9 (amended). The fields are copied in declaration order: the byte at a
    position is that of the last accepted field that has a byte for it.  So
    where two fields overlap, the later one's byte shows wherever it has
    one, and the earlier one's byte stays where the later one has none. *)
Theorem later_field_overwrites (ti : tinfo)
    (fields : list (StructField * Reflect.value))
    (l1 l2 : list fieldSpec) (s : fieldSpec) (p : nat) :
  implementsTextMarshaler ti = false ->
  Layouts fields (l1 ++ s :: l2) ->
  Forall (fun s' => 1 <= startPos s') (l1 ++ s :: l2) ->
  writes s p ->
  (forall s', In s' l2 -> ~ writes s' p) ->
  exists out,
    newValueEncoder (Some (TStruct ti)) (VStruct ti fields) = Done (out, None)
    /\ nth_error out p
       = nth_error (value s) (p - Z.to_nat (startPos s - 1)).
Proof.
  intros Htm HL Hpos Hw Hl2.
  pose proof (Layouts_positioned HL Hpos) as Hall.
  destruct (struct_line _ Htm HL Hpos) as (out & Hout & Henc).
  destruct (encodeSpecs_Done Hall) as (out' & Henc' & _ & _ & Hlast).
  rewrite Henc in Henc'. injection Henc' as <-.
  exists out. split; [exact Hout|]. eapply Hlast; eauto.
Qed.

(** C2. An accepted field whose bytes are shorter than its width, and which
    no other accepted field overlaps: with [leftpad] set its columns hold
    the bytes left-padded to the full width, with '0' when the type under
    the pointer layers is an integer or float kind that does not marshal
    itself and with ' ' otherwise; without [leftpad] they hold the bytes,
    left-aligned, then spaces. *)
Theorem leftpad_policy (ti : tinfo)
    (pre post : list (StructField * Reflect.value))
    (f : StructField) (fv : Reflect.value) (l1 l2 : list fieldSpec)
    (spec : fieldSpec) (b : bytes) :
  implementsTextMarshaler ti = false ->
  Layouts pre l1 -> Layouts post l2 ->
  parseTag (fixedTag f) = Some spec ->
  newValueEncoder (Some (typeOf fv)) fv = Done (b, None) ->
  len b < width spec ->
  Forall (fun s => 1 <= startPos s) (l1 ++ spec :: l2) ->
  Forall (disjoint spec) (l1 ++ l2) ->
  exists out,
    newValueEncoder (Some (TStruct ti)) (VStruct ti (pre ++ (f, fv) :: post))
    = Done (out, None) /\
    segment out spec =
    if leftpad spec then
      repeat (if negb (Implements (leafType (typeOf fv)))
                 && numeric (leafType (typeOf fv))
              then "0"%byte else " "%byte)
        (Z.to_nat (width spec - len b)) ++ b
    else b ++ repeat " "%byte (Z.to_nat (width spec - len b)).
Proof.
  intros Htm H1 H2 Htag Henc Hshort Hpos Hdis.
  destruct (field_segment _ _ _ Htm H1 H2 Htag Henc Hpos Hdis)
    as (Hs & out & Hout & Hseg).
  exists out. split; [exact Hout|]. rewrite Hseg.
  pose proof (len_nonneg b) as Hb.
  destruct (leftpad spec) eqn:Hpad.
  - rewrite (@padded_short_leftpad spec (typeOf fv) b Hs Hshort Hpad), leftpadChar_leaf.
    rewrite len_app, len_repeat.
    replace (Z.to_nat (width spec - (Z.of_nat (Z.to_nat (width spec - len b))
                                     + len b))) with 0%nat by lia.
    simpl. rewrite List.app_nil_r. apply firstn_all2.
    rewrite length_app, repeat_length. unfold len in *. lia.
  - rewrite (@padded_unpadded spec (typeOf fv) b Hs (or_intror Hpad)).
    apply firstn_all2. rewrite length_app, repeat_length. unfold len in *. lia.
Qed.

(** C3 (amended). A struct field that holds a nil pointer or interface, and
    whose declared type does not marshal itself, produces zero bytes.  When
    no other accepted field overlaps it, its whole width holds the fill
    character: a space, unless [leftpad] is set and the type under the
    pointer layers is an integer or float kind that does not marshal itself,
    in which case the width is filled with '0'. *)
Theorem nil_field_omitted (ti : tinfo)
    (pre post : list (StructField * Reflect.value))
    (f : StructField) (fv : Reflect.value) (l1 l2 : list fieldSpec)
    (spec : fieldSpec) :
  implementsTextMarshaler ti = false ->
  isNil fv = true ->
  Implements (typeOf fv) = false ->
  Layouts pre l1 -> Layouts post l2 ->
  parseTag (fixedTag f) = Some spec ->
  Forall (fun s => 1 <= startPos s) (l1 ++ spec :: l2) ->
  Forall (disjoint spec) (l1 ++ l2) ->
  newValueEncoder (Some (typeOf fv)) fv = Done ([], None) /\
  exists out,
    newValueEncoder (Some (TStruct ti)) (VStruct ti (pre ++ (f, fv) :: post))
    = Done (out, None) /\
    segment out spec =
    repeat (if leftpad spec && negb (Implements (leafType (typeOf fv)))
               && numeric (leafType (typeOf fv))
            then "0"%byte else " "%byte)
      (Z.to_nat (width spec)).
Proof.
  intros Htm Hnil Himpl H1 H2 Htag Hpos Hdis.
  assert (Henc : newValueEncoder (Some (typeOf fv)) fv = Done ([], None)).
  { destruct fv as [| | | |? ?|? [h|]| | |]; try discriminate Hnil;
      simpl in *; now rewrite Himpl. }
  split; [exact Henc|].
  destruct (field_segment _ _ _ Htm H1 H2 Htag Henc Hpos Hdis)
    as (Hs & out & Hout & Hseg).
  exists out. split; [exact Hout|]. rewrite Hseg.
  assert (Hw : 1 <= width spec) by (unfold positioned, width in *; lia).
  assert (Hlen0 : len (@nil byte) = 0) by reflexivity.
  destruct (leftpad spec) eqn:Hpad.
  - assert (Hshort : len (@nil byte) < width spec) by lia.
    rewrite (@padded_short_leftpad spec (typeOf fv) [] Hs Hshort Hpad).
    rewrite leftpadChar_leaf, List.app_nil_r, len_repeat, Hlen0, Z.sub_0_r.
    replace (Z.to_nat (width spec - Z.of_nat (Z.to_nat (width spec))))
      with 0%nat by lia.
    cbn [repeat andb]. rewrite List.app_nil_r.
    apply firstn_all2. rewrite repeat_length. lia.
  - rewrite (@padded_unpadded spec (typeOf fv) [] Hs (or_intror Hpad)).
    rewrite Hlen0, Z.sub_0_r. cbn [app andb].
    apply firstn_all2. rewrite repeat_length. lia.
Qed.

(** C4. A field whose position declaration is absent or malformed is not an
    error: the declaration is rejected, the struct encodes exactly as it
    does without that field, and when every other declaration is rejected
    too the line is empty. *)
Theorem rejected_field_skipped (ti : tinfo)
    (pre post : list (StructField * Reflect.value))
    (f : StructField) (fv : Reflect.value) :
  implementsTextMarshaler ti = false ->
  rejected (fixedTag f) ->
  parseTag (fixedTag f) = None /\
  newValueEncoder (Some (TStruct ti)) (VStruct ti (pre ++ (f, fv) :: post))
  = newValueEncoder (Some (TStruct ti)) (VStruct ti (pre ++ post)) /\
  (Forall (fun x => rejected (fixedTag (fst x))) (pre ++ post) ->
   newValueEncoder (Some (TStruct ti)) (VStruct ti (pre ++ (f, fv) :: post))
   = Done ([], None)).
Proof.
  intros Htm Hrej.
  pose proof (rejected_parseTag Hrej) as Htag.
  assert (Hskip :
    newValueEncoder (Some (TStruct ti)) (VStruct ti (pre ++ (f, fv) :: post))
    = newValueEncoder (Some (TStruct ti)) (VStruct ti (pre ++ post))).
  { simpl. unfold Implements. simpl. rewrite Htm.
    apply structFields_skip. exact Htag. }
  split; [exact Htag|]. split; [exact Hskip|].
  intros Hall. rewrite Hskip.
  rewrite (structEncoder_Layouts _ Htm (Layouts_rejected Hall)).
  reflexivity.
Qed.

(** C5. [Encode(nil)] succeeds and writes nothing.  When the value,
    pointers and interfaces unwrapped, is a slice whose elements encode,
    [Encode] succeeds and the sink receives the lines joined by the
    terminator: between consecutive lines, never after the last, and nothing
    at all for an empty slice; [Marshal] returns exactly the joined lines. *)
Theorem encode_slice_lines (e : Encoder) (iv : Reflect.value) (ti : tinfo)
    (elems : list Reflect.value) (lines : list bytes) :
  unwrap iv = Some (VSlice ti elems) ->
  Lines elems lines ->
  Encode e None = Done (e, None) /\
  Marshal None = Done ([], None) /\
  (exists e',
      Encode e (Some iv) = Done (e', None) /\
      Bufio.buf (w e') = [] /\
      Bufio.sink (w e')
      = Bufio.written (w e) ++ joinLines (lineEnd e) lines) /\
  Marshal (Some iv) = Done (joinLines newline lines, None) /\
  (elems = [] -> Marshal (Some iv) = Done ([], None)).
Proof.
  intros Hun HL.
  assert (HE : forall e0, exists e',
             Encode e0 (Some iv) = Done (e', None) /\
             Bufio.buf (w e') = [] /\
             Bufio.sink (w e')
             = Bufio.written (w e0) ++ joinLines (lineEnd e0) lines).
  { intros e0. unfold Encode. rewrite Hun. unfold writeLines.
    destruct (@writeLinesFrom_ok _ (lineEnd e0) (Z.of_nat (length elems))
                elems lines HL e0 0 (Z.add_0_l _))
      as (e1 & H1 & _ & HW).
    rewrite H1. simpl. eexists. split; [reflexivity|].
    simpl. split; [reflexivity | exact HW]. }
  assert (HM : Marshal (Some iv) = Done (joinLines newline lines, None)).
  { unfold Marshal. destruct (HE (NewEncoder [])) as (e' & H' & _ & HS).
    rewrite H'. simpl. now rewrite HS. }
  split; [reflexivity|]. split; [reflexivity|]. split; [apply HE|].
  split; [exact HM|].
  intros ->. inversion HL; subst. exact HM.
Qed.

(** C7. A shape with no recognized conversion makes the dispatcher fail
    with the invalid-type error that carries the shape's name; so does
    [Marshal] of such a value at top level, where only a slice is taken for
    a sequence of lines instead. *)
Theorem unknown_type_error (t : rtype) (v : Reflect.value) :
  recognized t = false ->
  newValueEncoder (Some t) v
  = Done ([], Some (MarshalInvalidTypeError (Name (info t)))) /\
  (typeOf v = t -> isSlice t = false ->
   Marshal (Some v)
   = Done ([], Some (MarshalInvalidTypeError (Name (info t))))).
Proof.
  intros Hrec. unfold recognized in Hrec.
  apply orb_false_elim in Hrec. destruct Hrec as [Himpl Hshape].
  assert (Hdisp : forall v', newValueEncoder (Some t) v'
            = Done ([], Some (MarshalInvalidTypeError (Name (info t))))).
  { intros v'. destruct t; try discriminate Hshape;
      destruct v'; simpl; rewrite Himpl; reflexivity. }
  split; [apply Hdisp|].
  intros Hty Hns. unfold Marshal, Encode.
  assert (Hun : unwrap v = Some v /\ forall ti' l, v <> VSlice ti' l).
  { subst t. destruct v; try discriminate Hshape; try discriminate Hns.
    split; [reflexivity | discriminate]. }
  destruct Hun as [-> Hnot].
  assert (HwL : writeLine (NewEncoder []) v
                = Done (NewEncoder [],
                        Some (MarshalInvalidTypeError (Name (info t))))).
  { unfold writeLine. rewrite Hty, Hdisp. reflexivity. }
  destruct v; try (rewrite HwL; reflexivity).
  exfalso. eapply Hnot. reflexivity.
Qed.

(** C8. Encoding a slice stops at the first element that fails: the call
    returns that element's error, the lines before it have been written
    each with its terminator and nothing of the failing line, and what
    follows the failing element is never looked at; [Marshal] returns the
    error alone.  Within a struct, the first accepted field that fails ends
    the line with its error in the same way. *)
Theorem first_error_aborts (e : Encoder) (iv : Reflect.value) (ti : tinfo)
    (pre post : list Reflect.value) (bad : Reflect.value) (b : bytes)
    (err : error) (lines : list bytes) :
  unwrap iv = Some (VSlice ti (pre ++ bad :: post)) ->
  Lines pre lines ->
  newValueEncoder (Some (typeOf bad)) bad = Done (b, Some err) ->
  (exists e',
      Encode e (Some iv) = Done (e', Some err) /\
      Bufio.written (w e')
      = Bufio.written (w e) ++ concat (map (fun l => l ++ lineEnd e) lines) /\
      forall iv' ti' post',
        unwrap iv' = Some (VSlice ti' (pre ++ bad :: post')) ->
        Encode e (Some iv') = Done (e', Some err)) /\
  Marshal (Some iv) = Done ([], Some err) /\
  (forall sti fpre fpost l1 f spec,
      implementsTextMarshaler sti = false ->
      Layouts fpre l1 ->
      parseTag (fixedTag f) = Some spec ->
      newValueEncoder (Some (TStruct sti))
        (VStruct sti (fpre ++ (f, bad) :: fpost))
      = Done ([], Some err)).
Proof.
  intros Hun HL Hbad.
  assert (HE : forall e0, exists e',
    Encode e0 (Some iv) = Done (e', Some err) /\
    Bufio.written (w e')
    = Bufio.written (w e0) ++ concat (map (fun l => l ++ lineEnd e0) lines) /\
    forall iv' ti' post',
      unwrap iv' = Some (VSlice ti' (pre ++ bad :: post')) ->
      Encode e0 (Some iv') = Done (e', Some err)).
  { intros e0.
    assert (Hn : 0 + Z.of_nat (length pre)
                 < Z.of_nat (length (pre ++ bad :: post))).
    { rewrite length_app. simpl. lia. }
    destruct (@writeLinesFrom_err _ (lineEnd e0) bad b err pre lines Hbad HL
                e0 _ 0 post Hn)
      as (e' & H' & HW & Hind).
    exists e'. split; [|split; [exact HW|]].
    - unfold Encode. rewrite Hun. unfold writeLines. now rewrite H'.
    - intros iv' ti' post' Hun'. unfold Encode. rewrite Hun'.
      unfold writeLines. rewrite Hind; [reflexivity|].
      rewrite length_app. simpl. lia. }
  split; [apply HE|]. split.
  - unfold Marshal. destruct (HE (NewEncoder [])) as (e' & H' & _).
    now rewrite H'.
  - intros sti fpre fpost l1 f spec Htm HF Htag.
    simpl. unfold Implements. simpl. rewrite Htm.
    eapply structFields_error; eauto.
Qed.

(** C10. When [Encode] returns an error, [Marshal] returns that error and
    no bytes, whatever had been written before the failure. *)
Theorem marshal_error_no_bytes (v : option Reflect.value) (e' : Encoder)
    (err : error) :
  Encode (NewEncoder []) v = Done (e', Some err) ->
  Marshal v = Done ([], Some err).
Proof. intros H. unfold Marshal. now rewrite H. Qed.

(** C6 (amended). A leaf scalar whose type does not marshal itself: a text
    yields its bytes; a signed integer of any width yields its canonical
    decimal numeral, with a minus sign when negative and nothing else; a
    finite float yields fixed notation with exactly two fraction digits,
    a minus sign only when its sign bit is set, the value rounded to the
    nearest hundredth.  Zero values are written like any other: ["0"],
    ["0.00"], and the empty text. *)
Theorem leaf_scalar_text (ti : tinfo) :
  implementsTextMarshaler ti = false ->
  (forall s,
      newValueEncoder (Some (TString ti)) (VString ti s)
      = Done (bytesOf s, None)) /\
  (forall k i,
      intMin <= i <= intMax ->
      exists d : Decimal.uint,
        newValueEncoder (Some (TInt ti k)) (VInt ti k i)
        = Done ((if i <? 0 then ["-"%byte] else []) ++ digitBytes d, None) /\
        Decimal.unorm d = d /\ N.of_uint d = Z.abs_N i) /\
  (forall k s m e,
      exists int d1 d2 : N,
        (d1 < 10)%N /\ (d2 < 10)%N /\
        newValueEncoder (Some (TFloat ti k)) (VFloat ti k (S754_finite s m e))
        = Done (fixed2 s int d1 d2, None) /\
        let '(num, den) := hundredths m e in
        let n := (100 * int + 10 * d1 + d2)%N in
        (2 * (n * den) <= 2 * num + den /\ 2 * num <= 2 * (n * den) + den)%N) /\
  (forall k s,
      newValueEncoder (Some (TFloat ti k)) (VFloat ti k (S754_zero s))
      = Done (fixed2 s 0 0 0, None)) /\
  (forall k,
      newValueEncoder (Some (TInt ti k)) (VInt ti k 0)
      = Done (["0"%byte], None)).
Proof.
  intros Htm.
  assert (Himpl : forall t, info t = ti -> Implements t = false).
  { intros t Ht. unfold Implements. now rewrite Ht. }
  split; [|split; [|split; [|split]]].
  - intros s. simpl. now rewrite (Himpl (TString ti) eq_refl).
  - intros k i Hi. destruct (Itoa_canonical i) as (d & H1 & H2 & H3).
    exists d. simpl. rewrite (Himpl (TInt ti k) eq_refl).
    unfold intEncoder. rewrite wrap_id by assumption. rewrite H1. auto.
  - intros k s m e.
    set (n := scaledRound m e 2).
    exists (n / 100)%N, (n mod 100 / 10)%N, (n mod 10)%N.
    split; [apply N.Div0.div_lt_upper_bound;
            pose proof (N.mod_lt n 100 ltac:(lia)); lia|].
    split; [apply N.mod_lt; lia|].
    split.
    + simpl. rewrite (Himpl (TFloat ti k) eq_refl).
      destruct k; unfold floatEncoder, FormatFloat; now rewrite fmtF_two.
    + rewrite digits_recompose. apply scaledRound_nearest.
  - intros k s. simpl. rewrite (Himpl (TFloat ti k) eq_refl).
    destruct k; unfold floatEncoder, FormatFloat; now rewrite fmtF_two.
  - intros k. simpl. now rewrite (Himpl (TInt ti k) eq_refl).
Qed.

End Properties.

(* ================================================================= *)
(** ** The properties on the samples *)

Import Samples.

Open Scope string_scope.

(** The truncation sample: a text field of width 5 given 9 characters. *)
Lemma struct_line_buffer_sample :
  exists out,
    newValueEncoder (Some (TStruct (plain "")))
      (record [(field "Name" "1,5", text "123456789")]) = Done (out, None)
    /\ len out = 5
    /\ segment out (spec 1 5 false "123456789") = bytesOf "12345".
Proof.
  destruct (@struct_line_buffer sampleMethods (plain "")
              [(field "Name" "1,5", text "123456789")]
              [spec 1 5 false "123456789"])
    as (out & H1 & H2 & _ & H4).
  - reflexivity.
  - eapply LayoutsField; [reflexivity | reflexivity | reflexivity | constructor].
  - repeat constructor. simpl. lia.
  - exists out. split; [exact H1|]. split.
    + destruct H2 as [[H _]|[(s & [<-|[]] & Hs) _]]; [discriminate H|].
      symmetry. exact Hs.
    + apply (H4 [] (spec 1 5 false "123456789") [] eq_refl).
      * unfold width, len. simpl. lia.
      * constructor.
Defined.

(** The padding samples: integer 2 and text "two" in a width-5 [leftpad]
    field. *)
Lemma leftpad_policy_sample :
  (exists out,
      newValueEncoder (Some (TStruct (plain "")))
        (record [(field "N" "1,5,leftpad", int 2)]) = Done (out, None)
      /\ segment out (spec 1 5 true "") = bytesOf "00002") /\
  (exists out,
      newValueEncoder (Some (TStruct (plain "")))
        (record [(field "S" "1,5,leftpad", text "two")]) = Done (out, None)
      /\ segment out (spec 1 5 true "") = bytesOf "  two").
Proof.
  split.
  - apply (@leftpad_policy sampleMethods (plain "") [] []
             (field "N" "1,5,leftpad") (int 2) [] [] (spec 1 5 true "")
             (bytesOf "2")).
    + reflexivity.
    + constructor.
    + constructor.
    + reflexivity.
    + reflexivity.
    + unfold width, len. simpl. lia.
    + repeat constructor. simpl. lia.
    + constructor.
  - apply (@leftpad_policy sampleMethods (plain "") [] []
             (field "S" "1,5,leftpad") (text "two") [] [] (spec 1 5 true "")
             (bytesOf "two")).
    + reflexivity.
    + constructor.
    + constructor.
    + reflexivity.
    + reflexivity.
    + unfold width, len. simpl. lia.
    + repeat constructor. simpl. lia.
    + constructor.
Defined.

(** C3, as stated, fails: a nil [*int] in a [leftpad] field leaves its
    columns filled with '0', not with spaces. *)
Lemma nil_pointer_leftpad_zero_filled :
  isNil (nilPtr intType) = true /\
  parseTag "1,5,leftpad" = Some (spec 1 5 true "") /\
  newValueEncoder (Some (TStruct (plain "")))
    (record [(field "P" "1,5,leftpad", nilPtr intType)])
  = Done (bytesOf "00000", None) /\
  segment (bytesOf "00000") (spec 1 5 true "") <> repeat " "%byte 5.
Proof.
  split; [reflexivity|]. split; [reflexivity|]. split; [reflexivity|].
  vm_compute. discriminate.
Qed.

(** A nil [*string] without [leftpad]: nothing is produced and the field
    stays blank. *)
Lemma nil_field_omitted_sample :
  newValueEncoder (Some (typeOf (nilPtr stringType))) (nilPtr stringType)
  = Done ([], None) /\
  exists out,
    newValueEncoder (Some (TStruct (plain "")))
      (record [(field "P" "1,5", nilPtr stringType)]) = Done (out, None)
    /\ segment out (spec 1 5 false "") = bytesOf "     ".
Proof.
  apply (@nil_field_omitted sampleMethods (plain "") [] []
           (field "P" "1,5") (nilPtr stringType) [] [] (spec 1 5 false "")).
  - reflexivity.
  - reflexivity.
  - reflexivity.
  - constructor.
  - constructor.
  - reflexivity.
  - repeat constructor. simpl. lia.
  - constructor.
Defined.

(** The tag sample of the test suite: one valid declaration, one field
    without a declaration, one with a single token. *)
Lemma rejected_field_skipped_sample :
  parseTag "5" = None /\
  newValueEncoder (Some (TStruct (plain "")))
    (record [(field "Valid" "1,5", text "foo");
             (field "NoTags" "", text "foo");
             (field "InvalidTags" "5", bool)])
  = newValueEncoder (Some (TStruct (plain "")))
      (record [(field "Valid" "1,5", text "foo");
               (field "NoTags" "", text "foo")]).
Proof.
  destruct (@rejected_field_skipped sampleMethods (plain "")
              [(field "Valid" "1,5", text "foo");
               (field "NoTags" "", text "foo")] []
              (field "InvalidTags" "5") bool) as (H1 & H2 & _).
  - reflexivity.
  - right. left. simpl. split; discriminate.
  - split; [exact H1 | exact H2].
Defined.

(** Stream framing: two one-byte lines, default terminator. *)
Lemma encode_slice_lines_sample :
  Marshal (Some (slice [text "X"; text "Y"]))
  = Done (["X"%byte; x0a; "Y"%byte], None).
Proof.
  apply (@encode_slice_lines sampleMethods (NewEncoder [])
           (slice [text "X"; text "Y"]) (plain "") [text "X"; text "Y"]
           [bytesOf "X"; bytesOf "Y"]).
  - reflexivity.
  - repeat constructor.
Defined.

(** C6, as stated, fails: positive infinity is written with a sign and
    without fraction digits. *)
Lemma infinity_not_fixed_notation :
  newValueEncoder (Some (TFloat (plain "float64") Float64))
    (float64 (S754_infinity false)) = Done (bytesOf "+Inf", None) /\
  ~ exists neg int d1 d2, bytesOf "+Inf" = fixed2 neg int d1 d2.
Proof.
  split; [reflexivity|].
  intros (neg & n & d1 & d2 & H). unfold fixed2, formatUint in H.
  destruct neg; [discriminate H|].
  destruct (N.to_uint n); discriminate H.
Qed.

Lemma leaf_scalar_text_sample :
  newValueEncoder (Some (TString (plain "string"))) (text "foo")
  = Done (bytesOf "foo", None).
Proof.
  apply (@leaf_scalar_text sampleMethods (plain "string")). reflexivity.
Defined.

(** A boolean at top level. *)
Lemma unknown_type_error_sample :
  Marshal (Some bool) = Done ([], Some (MarshalInvalidTypeError "bool")).
Proof.
  apply (@unknown_type_error sampleMethods (TOther (plain "bool") Bool) bool);
    reflexivity.
Defined.

(** A slice whose second element holds a boolean: the first line was
    written, the call returns the error alone, and the third element is
    not looked at. *)
Lemma first_error_aborts_sample :
  Marshal (Some (slice [pair (text "foo") (int 1); pair (text "bar") bool;
                        pair (text "baz") (int 3)]))
  = Done ([], Some (MarshalInvalidTypeError "bool")).
Proof.
  apply (@first_error_aborts sampleMethods (NewEncoder [])
           (slice [pair (text "foo") (int 1); pair (text "bar") bool;
                   pair (text "baz") (int 3)])
           (plain "") [pair (text "foo") (int 1)] [pair (text "baz") (int 3)]
           (pair (text "bar") bool) []
           (MarshalInvalidTypeError "bool") [bytesOf "foo  1    "]).
  - reflexivity.
  - repeat constructor.
  - reflexivity.
Defined.

(** C9, as stated, fails: the later field is shorter than its width, and at
    column 2, which both fields declare, the earlier field's byte shows. *)
Lemma later_short_field_keeps_earlier_byte :
  newValueEncoder (Some (TStruct (plain "")))
    (record [(field "A" "1,5", text "AAAAA"); (field "B" "1,5", text "B")])
  = Done (bytesOf "BAAAA", None) /\
  covers (spec 1 5 false "AAAAA") 1 /\
  covers (spec 1 5 false "B") 1 /\
  nth_error (bytesOf "BAAAA") 1 = nth_error (value (spec 1 5 false "AAAAA")) 1 /\
  nth_error (bytesOf "BAAAA") 1 <> nth_error (value (spec 1 5 false "B")) 1.
Proof.
  split; [reflexivity|].
  split; [unfold covers; simpl; lia|].
  split; [unfold covers; simpl; lia|].
  split; [reflexivity | discriminate].
Qed.

Lemma later_field_overwrites_sample :
  exists out,
    newValueEncoder (Some (TStruct (plain "")))
      (record [(field "A" "1,5", text "AAAAA"); (field "B" "1,5", text "B")])
    = Done (out, None) /\
    nth_error out 0 = Some "B"%byte.
Proof.
  apply (@later_field_overwrites sampleMethods (plain "")
           [(field "A" "1,5", text "AAAAA"); (field "B" "1,5", text "B")]
           [spec 1 5 false "AAAAA"] [] (spec 1 5 false "B") 0).
  - reflexivity.
  - eapply LayoutsField; [reflexivity | reflexivity | reflexivity |].
    eapply LayoutsField; [reflexivity | reflexivity | reflexivity |].
    constructor.
  - repeat constructor; simpl; lia.
  - unfold writes, covers, len. simpl. lia.
  - intros s' [].
Defined.

(** The first line had been written when the second element failed;
    [Marshal] still returns no bytes. *)
Lemma marshal_error_no_bytes_sample :
  Marshal (Some (slice [pair (text "foo") (int 1); pair (text "bar") bool]))
  = Done ([], Some (MarshalInvalidTypeError "bool")).
Proof.
  eapply (@marshal_error_no_bytes sampleMethods). vm_compute. reflexivity.
Defined.

Close Scope string_scope.

(* ================================================================= *)
(** ** More about the line buffer *)

Module MoreLineFacts.
Import Go Reflect Fixedwidth Layout GoFacts LineFacts StructFacts.

Lemma writes_or_not (s : fieldSpec) (p : nat) : writes s p \/ ~ writes s p.
Proof. unfold writes, covers. lia. Qed.

(** Either some layout is the last one with a byte for [p], or none has
    one. *)
Lemma last_writer (specs : list fieldSpec) (p : nat) :
  (exists l1 s l2,
      specs = l1 ++ s :: l2 /\ writes s p /\
      forall s', In s' l2 -> ~ writes s' p) \/
  (forall s, In s specs -> ~ writes s p).
Proof.
  induction specs as [|s0 rest IH].
  - right. intros s [].
  - destruct IH as [(l1 & s & l2 & -> & Hw & Hl2)|Hnone].
    + left. exists (s0 :: l1), s, l2. auto.
    + destruct (writes_or_not s0 p) as [Hw|Hn].
      * left. exists [], s0, rest. auto.
      * right. intros s [<-|Hin]; auto.
Qed.

(** The line length depends on the declared ends alone. *)
Lemma lineLength_members (specs specs' : list fieldSpec) :
  (forall e, In e (map endPos specs) <-> In e (map endPos specs')) ->
  lineLength specs = lineLength specs'.
Proof.
  intros Hsame.
  assert (Hle : forall a b : list fieldSpec,
             (forall e, In e (map endPos a) -> In e (map endPos b)) ->
             lineLength a <= lineLength b).
  { intros a b Hab.
    destruct (lineLength_fold a 0) as (_ & _ & [H0|(s & Hin & Hs)]).
    - unfold lineLength. rewrite H0. apply lineLength_nonneg.
    - unfold lineLength at 1. rewrite <- Hs.
      destruct (proj1 (in_map_iff _ _ _) (Hab _ (in_map endPos _ _ Hin)))
        as (s' & <- & Hin').
      now apply lineLength_ge. }
  apply Z.le_antisymm; apply Hle; intros e; apply Hsame.
Qed.

(** A layout that starts at column 0 or before stops the second loop with a
    run-time panic, wherever it stands. *)
Lemma copySpecs_panics (l1 l2 : list fieldSpec) (s : fieldSpec) :
  intMin < startPos s <= 0 ->
  forall data, copySpecs data (l1 ++ s :: l2) = Panic.
Proof.
  intros Hs. induction l1 as [|s0 l1 IH]; intros data; simpl.
  - rewrite wrap_id by (unfold intMin, intMax in *; lia).
    unfold copyAt. destruct (Z.leb_spec 0 (startPos s - 1)); [lia|].
    reflexivity.
  - destruct (copyAt data _ _ _); simpl; [apply IH | reflexivity].
Qed.

(** Two runs of layouts that differ only in the bytes of layouts that do not
    cover [p] leave the same byte at [p]. *)
Lemma copySpecs_agree (p : nat) (specs specs' : list fieldSpec) :
  Forall2 (fun a b => sameRange a b /\ (a = b \/ ~ covers a p)) specs specs' ->
  Forall positioned specs ->
  forall data data' out out',
    length data = length data' ->
    nth_error data p = nth_error data' p ->
    copySpecs data specs = Done out ->
    copySpecs data' specs' = Done out' ->
    length out = length out' /\ nth_error out p = nth_error out' p.
Proof.
  induction 1 as [|a b specs specs' [[Hs He] Hab] _ IH];
    intros Hpos data data' out out' Hlen Hp Hout Hout'; simpl in *.
  - injection Hout as <-. injection Hout' as <-. auto.
  - pose proof (Forall_inv Hpos) as Ha. apply Forall_inv_tail in Hpos.
    rewrite (lo_positioned Ha) in Hout.
    assert (Hb : positioned b) by (unfold positioned in *; lia).
    rewrite (lo_positioned Hb) in Hout'.
    destruct (copyAt data _ _ _) as [d1|] eqn:E1; [|discriminate].
    destruct (copyAt data' _ _ _) as [d1'|] eqn:E1'; [|discriminate].
    simpl in *.
    apply copyAt_inv in E1. destruct E1 as (B1 & B2 & B3 & ->).
    apply copyAt_inv in E1'. destruct E1' as (B1' & B2' & B3' & ->).
    eapply IH; [exact Hpos | | | exact Hout | exact Hout'].
    + now rewrite !copied_length.
    + rewrite <- Hs, <- He.
      destruct Hab as [<-|Hnc].
      * destruct (writes_or_not a p) as [Hw|Hn].
        -- unfold writes, covers in Hw.
           rewrite !copied_inside by (try assumption; lia). reflexivity.
        -- unfold writes, covers in Hn.
           rewrite !copied_outside by (try assumption; lia). exact Hp.
      * unfold covers in Hnc.
        rewrite !copied_outside by (try assumption; lia). exact Hp.
Qed.

(** *** Tiling layouts *)

Lemma Tiles_bounds (a e : Z) (specs : list fieldSpec) :
  Tiles a specs e ->
  Forall ordered specs ->
  a <= e /\ Forall (fun s => a <= startPos s /\ endPos s < e) specs.
Proof.
  induction 1 as [a|a s rest e Hs _ IH]; intros Hord.
  - split; [lia | constructor].
  - pose proof (Forall_inv Hord) as Ho. apply Forall_inv_tail in Hord.
    destruct (IH Hord) as [Hle Hall]. unfold ordered in Ho.
    split; [lia|]. constructor; [lia|].
    eapply Forall_impl; [|exact Hall]. simpl. intros x. lia.
Qed.

Lemma Tiles_split (l1 l2 : list fieldSpec) (s : fieldSpec) :
  forall a e,
    Tiles a (l1 ++ s :: l2) e ->
    exists m, Tiles a l1 m /\ startPos s = m /\ Tiles (endPos s + 1) l2 e.
Proof.
  induction l1 as [|s0 l1 IH]; intros a e H; simpl in H.
  - inversion H; subst. exists (startPos s). repeat split; auto. constructor.
  - inversion H as [|? ? ? ? Hs0 Hrest]; subst.
    destruct (IH _ _ Hrest) as (m & H1 & H2 & H3).
    exists m. repeat split; auto. now constructor.
Qed.

Lemma Tiles_last (a e : Z) (specs : list fieldSpec) :
  Tiles a specs e -> specs <> [] ->
  exists s, In s specs /\ endPos s = e - 1.
Proof.
  induction 1 as [a|a s rest e Hs Hrest IH]; intros Hne; [congruence|].
  destruct rest as [|s1 rest].
  - inversion Hrest; subst. exists s. split; [now left | lia].
  - destruct IH as (x & Hin & Hx); [discriminate|].
    exists x. split; [now right | exact Hx].
Qed.

(** In a tiling every layout is apart from all the others. *)
Lemma Tiles_disjoint (l1 l2 : list fieldSpec) (s : fieldSpec) (a e : Z) :
  Tiles a (l1 ++ s :: l2) e ->
  Forall ordered (l1 ++ s :: l2) ->
  Forall (disjoint s) l1 /\ Forall (disjoint s) l2.
Proof.
  intros HT Hord.
  destruct (Tiles_split _ _ _ HT) as (m & H1 & Hm & H2).
  rewrite Forall_app in Hord. destruct Hord as [Ho1 Ho2].
  apply Forall_inv_tail in Ho2.
  destruct (Tiles_bounds H1 Ho1) as [_ B1].
  destruct (Tiles_bounds H2 Ho2) as [_ B2].
  split; (eapply Forall_impl; [|eassumption]); simpl; unfold disjoint;
    intros x; lia.
Qed.

(** A line whose segments are the cells of a tiling is their
    concatenation. *)
Lemma Tiles_concat (out : bytes) (a e : Z) (specs : list fieldSpec) :
  Tiles a specs e ->
  Forall ordered specs ->
  1 <= a ->
  len out = e - 1 ->
  (forall s, In s specs -> segment out s = cell s) ->
  skipn (Z.to_nat (a - 1)) out = concat (map cell specs).
Proof.
  induction 1 as [a|a s rest e Hs _ IH]; intros Hord Ha Hlen Hseg.
  - simpl. apply skipn_all2. unfold len in Hlen. lia.
  - pose proof (Forall_inv Hord) as Ho. apply Forall_inv_tail in Hord.
    unfold ordered in Ho. simpl.
    rewrite <- (Hseg s (or_introl eq_refl)), <- IH; try assumption;
      [|lia|intros x Hx; apply Hseg; now right].
    unfold segment, width. subst a.
    rewrite <- (firstn_skipn (Z.to_nat (endPos s - startPos s + 1))
                  (skipn (Z.to_nat (startPos s - 1)) out)) at 1.
    f_equal. rewrite skipn_skipn. f_equal. lia.
Qed.

(** The line of a tiling that starts at column 1. *)
Lemma encodeSpecs_Tiles (specs : list fieldSpec) (e : Z) :
  Tiles 1 specs e ->
  Forall ordered specs ->
  encodeSpecs specs = Done (concat (map cell specs)).
Proof.
  intros HT Hord.
  destruct (Tiles_bounds HT Hord) as [He Hb].
  assert (Hpos : Forall positioned specs).
  { rewrite Forall_forall in *. intros s Hin.
    specialize (Hord s Hin). specialize (Hb s Hin).
    unfold ordered, positioned in *. lia. }
  destruct (encodeSpecs_Done Hpos) as (out & Hout & Hlen & _).
  rewrite Hout. f_equal.
  change out with (skipn (Z.to_nat (1 - 1)) out).
  apply (@Tiles_concat out 1 e specs HT Hord); [lia | |].
  - rewrite Hlen. destruct specs as [|s0 specs].
    + inversion HT; subst. reflexivity.
    + destruct (Tiles_last HT) as (x & Hin & Hx); [discriminate|].
      pose proof (lineLength_ge _ _ Hin) as Hge.
      destruct (lineLength_fold (s0 :: specs) 0) as (_ & _ & [H0|(y & Hy & Hy')]).
      * unfold lineLength in *. rewrite H0 in *.
        rewrite Forall_forall in Hpos. specialize (Hpos x Hin).
        unfold positioned in Hpos. lia.
      * unfold lineLength in *. rewrite <- Hy' in *.
        rewrite Forall_forall in Hb. specialize (Hb y Hy). lia.
  - intros s Hin. destruct (in_split _ _ Hin) as (l1 & l2 & ->).
    destruct (Tiles_disjoint _ _ _ HT Hord) as [D1 D2].
    exact (@segment_bytes l1 l2 s out Hpos Hout D2 (or_intror D1)).
Qed.

Section Loop.
Context {methods : TextMarshaler}.

(** The declared ranges of the layouts come from the tags alone. *)
Lemma Layouts_sameRange (fields : list (StructField * Reflect.value))
    (specs : list fieldSpec) :
  Layouts fields specs ->
  forall fields' specs',
    Layouts fields' specs' ->
    tagsOf fields = tagsOf fields' ->
    Forall2 sameRange specs specs'.
Proof.
  induction 1 as [| f fv rest specs Htag _ IH
                  | f fv rest specs spec b spec1 Htag Henc Hpad _ IH];
    intros fields' specs' HL' Htags.
  - destruct fields'; [|discriminate]. inversion HL'. constructor.
  - destruct fields' as [|[g gv] rest']; [discriminate|].
    injection Htags as Hg Hrest. simpl in Hg.
    inversion HL'; subst; [eapply IH; eassumption | congruence].
  - destruct fields' as [|[g gv] rest']; [discriminate|].
    injection Htags as Hg Hrest. simpl in Hg.
    inversion HL' as [| |? ? ? ? spec0 b0 spec2 Htag' Henc' Hpad' HL2];
      subst; [congruence|].
    constructor; [|eapply IH; eassumption].
    rewrite padField_Done in Hpad, Hpad'.
    injection Hpad as <-. injection Hpad' as <-.
    assert (spec0 = spec) by congruence. subst spec0.
    split; reflexivity.
Qed.

End Loop.

End MoreLineFacts.

(* ================================================================= *)
(** ** More about the record writer *)

Module EncodeFacts.
Import Go Reflect Fixedwidth Layout GoFacts WriterFacts.

Lemma skipn_app_exact (A : Type) (a b : list A) (n : nat) :
  n = length a -> skipn n (a ++ b) = b.
Proof.
  intros ->. rewrite skipn_app, skipn_all, Nat.sub_diag. reflexivity.
Qed.

Lemma firstn_app_exact (A : Type) (a b : list A) (n : nat) :
  n = length a -> firstn n (a ++ b) = a.
Proof.
  intros ->. rewrite firstn_app, firstn_all, Nat.sub_diag. simpl.
  apply List.app_nil_r.
Qed.

(** Lines of one length sit at fixed offsets of the joined text. *)
Lemma joinLines_offset (sep : bytes) (L : nat) (lines : list bytes) :
  Forall (fun l => length l = L) lines ->
  forall k l,
    nth_error lines k = Some l ->
    firstn L (skipn (k * (L + length sep)) (joinLines sep lines)) = l.
Proof.
  induction 1 as [|l0 rest Hl0 Hrest IH]; intros k l Hk.
  - destruct k; discriminate Hk.
  - destruct k as [|k]; simpl in Hk.
    + injection Hk as <-. simpl.
      destruct rest; [apply firstn_all2; lia|].
      now apply firstn_app_exact.
    + destruct rest as [|l1 rest]; [destruct k; discriminate Hk|].
      change (joinLines sep (l0 :: l1 :: rest))
        with (l0 ++ sep ++ joinLines sep (l1 :: rest)).
      replace (S k * (L + length sep))%nat
        with (k * (L + length sep) + (L + length sep))%nat by lia.
      rewrite <- skipn_skipn.
      rewrite List.app_assoc, skipn_app_exact
        by (rewrite length_app; lia).
      now apply IH.
Qed.

Lemma joinLines_length (sep : bytes) (L : nat) (lines : list bytes) :
  Forall (fun l => length l = L) lines ->
  lines <> [] ->
  (length (joinLines sep lines) + length sep
   = length lines * (L + length sep))%nat.
Proof.
  induction 1 as [|l0 rest Hl0 Hrest IH]; intros Hne; [now elim Hne|].
  destruct rest as [|l1 rest].
  - simpl. lia.
  - change (joinLines sep (l0 :: l1 :: rest))
      with (l0 ++ sep ++ joinLines sep (l1 :: rest)).
    rewrite !length_app. cbn [length] in *.
    specialize (IH ltac:(discriminate)). lia.
Qed.

Section Writer.
Context {methods : TextMarshaler}.

(** Whatever [writeLine] returns, it has only appended to what was
    written and has kept the terminator. *)
Lemma writeLine_appends (e e' : Encoder) (x : Reflect.value)
    (r : option error) :
  writeLine e x = Done (e', r) ->
  LineEnd e' = LineEnd e /\
  exists suffix, Bufio.written (w e') = Bufio.written (w e) ++ suffix.
Proof.
  unfold writeLine.
  destruct (newValueEncoder (Some (typeOf x)) x) as [[b [err|]]|]; simpl;
    try discriminate.
  - intros [= <- <-]. split; [reflexivity|]. exists [].
    now rewrite List.app_nil_r.
  - destruct (Write_written (w e) b) as [_ HW].
    destruct (Bufio.Write (w e) b) as [w' err]. simpl in HW.
    intros [= <- <-]. split; [reflexivity|]. now exists b.
Qed.

Lemma writeLinesFrom_appends (term : bytes) (n : Z)
    (elems : list Reflect.value) :
  forall (e e' : Encoder) (i : Z) (r : option error),
    writeLinesFrom e term n i elems = Done (e', r) ->
    LineEnd e' = LineEnd e /\
    exists suffix, Bufio.written (w e') = Bufio.written (w e) ++ suffix.
Proof.
  induction elems as [|x rest IH]; intros e e' i r H; simpl in H.
  - injection H as <- <-. split; [reflexivity|]. exists [].
    now rewrite List.app_nil_r.
  - destruct (writeLine e x) as [[e1 [err|]]|] eqn:E1; simpl in H;
      try discriminate.
    + injection H as <- <-. exact (writeLine_appends _ _ E1).
    + destruct (writeLine_appends _ _ E1) as (HL1 & s1 & HW1).
      destruct (negb (i =? n - 1)).
      * destruct (writeTerminator e1 term) as (w' & HWt & HWw).
        rewrite HWt in H.
        destruct (IH _ _ _ _ H) as (HL & s2 & HW). simpl in HL, HW.
        split; [congruence|]. exists (s1 ++ term ++ s2).
        rewrite HW, HWw, HW1. now rewrite <- !List.app_assoc.
      * destruct (IH _ _ _ _ H) as (HL & s2 & HW).
        split; [congruence|]. exists (s1 ++ s2).
        rewrite HW, HW1. now rewrite <- !List.app_assoc.
Qed.

(** [Encode] of a value that unwraps to a slice whose elements encode. *)
Lemma Encode_slice (e : Encoder) (iv : Reflect.value) (ti : tinfo)
    (elems : list Reflect.value) (lines : list bytes) :
  unwrap iv = Some (VSlice ti elems) ->
  Lines elems lines ->
  exists e',
    Encode e (Some iv) = Done (e', None) /\
    LineEnd e' = LineEnd e /\
    Bufio.buf (w e') = [] /\
    Bufio.sink (w e') = Bufio.written (w e) ++ joinLines (lineEnd e) lines.
Proof.
  intros Hun HL. unfold Encode. rewrite Hun. unfold writeLines.
  destruct (@writeLinesFrom_ok _ (lineEnd e) (Z.of_nat (length elems))
              elems lines HL e 0 (Z.add_0_l _)) as (e1 & H1 & HE & HW).
  rewrite H1. simpl. eexists. split; [reflexivity|].
  simpl. repeat split; assumption.
Qed.


(** A value that does not unwrap to a slice is one line. *)
Lemma Encode_single (e : Encoder) (v : Reflect.value) :
  (forall ti elems, unwrap v <> Some (VSlice ti elems)) ->
  Encode e (Some v)
  = (r <- writeLine e v ;;
     match r with
     | (e1, Some err) => Done (e1, Some err)
     | (e1, None) =>
         let '(w', err) := Bufio.Flush (w e1) in Done (withWriter e1 w', err)
     end).
Proof.
  intros Hns. unfold Encode.
  destruct (unwrap v) as [u|]; [|reflexivity].
  destruct u; try reflexivity. exfalso. eapply Hns. reflexivity.
Qed.

End Writer.

End EncodeFacts.

From Stdlib Require Import Permutation DecimalPos.

(* ================================================================= *)
(** ** Reading decimal text back *)

Module ReadBackFacts.
Import Go Layout.
Import DecimalPos.

Lemma parseDigits_digitBytes (d : Decimal.uint) : forall acc,
  parseDigits (string_of_list_byte (digitBytes d)) acc = Some (bigEndian d acc).
Proof.
  induction d; intros acc; simpl; try reflexivity;
    rewrite IHd; f_equal; f_equal; lia.
Qed.

Lemma of_uint_cons (k : N) (r : Decimal.uint) (c : Decimal.uint -> Decimal.uint) :
  (forall x, Unsigned.of_lu (c x) = k + 10 * Unsigned.of_lu x)%N ->
  (forall x y, Decimal.revapp (c x) y = Decimal.revapp x (c y)) ->
  (N.of_uint (c r) = k * 10 ^ Unsigned.usize r + N.of_uint r)%N.
Proof.
  intros Hc Hr. unfold N.of_uint. rewrite !Unsigned.of_uint_alt.
  unfold Decimal.rev at 1. rewrite Hr, Unsigned.of_lu_revapp, Hc. simpl. lia.
Qed.

Lemma bigEndian_value (d : Decimal.uint) : forall acc,
  (bigEndian d acc = acc * 10 ^ Unsigned.usize d + N.of_uint d)%N.
Proof.
  induction d; intros acc; cbn [bigEndian Unsigned.usize].
  - simpl. lia.
  - rewrite IHd, (@of_uint_cons 0 d Decimal.D0), N.pow_succ_r' by (intros; reflexivity). lia.
  - rewrite IHd, (@of_uint_cons 1 d Decimal.D1), N.pow_succ_r' by (intros; reflexivity). lia.
  - rewrite IHd, (@of_uint_cons 2 d Decimal.D2), N.pow_succ_r' by (intros; reflexivity). lia.
  - rewrite IHd, (@of_uint_cons 3 d Decimal.D3), N.pow_succ_r' by (intros; reflexivity). lia.
  - rewrite IHd, (@of_uint_cons 4 d Decimal.D4), N.pow_succ_r' by (intros; reflexivity). lia.
  - rewrite IHd, (@of_uint_cons 5 d Decimal.D5), N.pow_succ_r' by (intros; reflexivity). lia.
  - rewrite IHd, (@of_uint_cons 6 d Decimal.D6), N.pow_succ_r' by (intros; reflexivity). lia.
  - rewrite IHd, (@of_uint_cons 7 d Decimal.D7), N.pow_succ_r' by (intros; reflexivity). lia.
  - rewrite IHd, (@of_uint_cons 8 d Decimal.D8), N.pow_succ_r' by (intros; reflexivity). lia.
  - rewrite IHd, (@of_uint_cons 9 d Decimal.D9), N.pow_succ_r' by (intros; reflexivity). lia.
Qed.

Lemma parse_formatUint (n : N) :
  parseDigits (string_of_list_byte (formatUint n)) 0 = Some n.
Proof.
  unfold formatUint. rewrite parseDigits_digitBytes, bigEndian_value.
  now rewrite DecimalN.Unsigned.of_to.
Qed.

Lemma Atoi_digits (n : N) :
  Z.of_N n <= intMax ->
  Atoi (string_of_list_byte (formatUint n)) = Some (Z.of_N n).
Proof.
  intros Hn. pose proof (parse_formatUint n) as Hp.
  assert (Hr : (intMin <=? Z.of_N n) && (Z.of_N n <=? intMax) = true).
  { apply andb_true_intro. split; apply Z.leb_le; unfold intMin; lia. }
  unfold formatUint in *. unfold Atoi.
  destruct (N.to_uint n) eqn:E;
    [simpl in Hp; injection Hp as <-; vm_compute in E; discriminate E | ..];
    cbn [digitBytes] in *;
    remember (digitBytes u) as tail;
    match goal with
    | |- context [string_of_list_byte (?b :: tail)] =>
        let c := eval vm_compute in (ascii_of_byte b) in
        change (string_of_list_byte (b :: tail))
          with (String c (string_of_list_byte tail)) in *
    end;
    cbv beta iota; rewrite Hp, Hr; reflexivity.
Qed.

Lemma Atoi_Itoa (i : Z) :
  intMin <= i <= intMax ->
  Atoi (string_of_list_byte (Itoa i)) = Some i.
Proof.
  intros Hi. unfold Itoa. destruct (Z.ltb_spec i 0) as [Hneg|Hpos].
  - pose proof (parse_formatUint (Z.to_N (- i))) as Hp.
    change (string_of_list_byte ("-"%byte :: formatUint (Z.to_N (- i))))
      with (String "-"%char (string_of_list_byte (formatUint (Z.to_N (- i))))).
    unfold Atoi. cbv beta iota.
    destruct (string_of_list_byte (formatUint (Z.to_N (- i)))) as [|c r] eqn:E.
    + simpl in Hp. injection Hp as Hp. lia.
    + rewrite Hp.
      replace (- Z.of_N (Z.to_N (- i))) with i by lia.
      destruct (Z.leb_spec intMin i); [|lia].
      destruct (Z.leb_spec i intMax); [reflexivity | lia].
  - rewrite Atoi_digits by lia. f_equal. lia.
Qed.

End ReadBackFacts.



(* ================================================================= *)
(** ** Further properties of the encoder *)

Import MoreLineFacts EncodeFacts ReadBackFacts.

Section MoreProperties.
Context {methods : TextMarshaler}.

(** X1. A value that does not unwrap to a slice and that encodes is written
    as exactly one line: its bytes, no terminator, flushed to the sink;
    [Marshal] returns those bytes. *)
Theorem encode_single_value (e : Encoder) (v : Reflect.value) (b : bytes) :
  (forall ti elems, unwrap v <> Some (VSlice ti elems)) ->
  newValueEncoder (Some (typeOf v)) v = Done (b, None) ->
  (exists e',
      Encode e (Some v) = Done (e', None) /\
      LineEnd e' = LineEnd e /\
      Bufio.buf (w e') = [] /\
      Bufio.sink (w e') = Bufio.written (w e) ++ b) /\
  Marshal (Some v) = Done (b, None).
Proof.
  intros Hns Henc.
  assert (HE : forall e0, exists e',
             Encode e0 (Some v) = Done (e', None) /\
             LineEnd e' = LineEnd e0 /\
             Bufio.buf (w e') = [] /\
             Bufio.sink (w e') = Bufio.written (w e0) ++ b).
  { intros e0. rewrite (Encode_single e0 v Hns).
    destruct (writeLine_ok e0 v Henc) as (e1 & H1 & HL & HW).
    rewrite H1. simpl. eexists. split; [reflexivity|]. simpl. auto. }
  split; [apply HE|].
  unfold Marshal. destruct (HE (NewEncoder [])) as (e' & H' & _ & _ & HS).
  rewrite H'. simpl. now rewrite HS.
Qed.

(** X2. A value that does not unwrap to a slice and whose encoder fails:
    [Encode] returns the error and leaves the encoder as it was, nothing
    written and nothing flushed; [Marshal] returns the error alone. *)
Theorem encode_single_error (e : Encoder) (v : Reflect.value) (b : bytes)
    (err : error) :
  (forall ti elems, unwrap v <> Some (VSlice ti elems)) ->
  newValueEncoder (Some (typeOf v)) v = Done (b, Some err) ->
  Encode e (Some v) = Done (e, Some err) /\
  Marshal (Some v) = Done ([], Some err).
Proof.
  intros Hns Henc.
  assert (HE : forall e0, Encode e0 (Some v) = Done (e0, Some err)).
  { intros e0. rewrite (Encode_single e0 v Hns).
    now rewrite (writeLine_err e0 v Henc). }
  split; [apply HE|]. unfold Marshal. now rewrite HE.
Qed.

(** X3. Pointers and interfaces are transparent: encoding a non-nil pointer,
    or an interface holding a value, of a type that does not marshal itself
    is encoding what it points to or holds, at top level ([Encode],
    [Marshal]) as in the dispatcher. *)
Theorem wrappers_are_transparent (ti : tinfo) (p : Reflect.value) :
  implementsTextMarshaler ti = false ->
  (forall e, Encode e (Some (VPtr ti p)) = Encode e (Some p)) /\
  (forall e, Encode e (Some (VInterface ti (Some p))) = Encode e (Some p)) /\
  Marshal (Some (VPtr ti p)) = Marshal (Some p) /\
  newValueEncoder (Some (typeOf (VPtr ti p))) (VPtr ti p)
  = newValueEncoder (Some (typeOf p)) p.
Proof.
  intros Htm.
  assert (HP : newValueEncoder (Some (typeOf (VPtr ti p))) (VPtr ti p)
               = newValueEncoder (Some (typeOf p)) p).
  { simpl. unfold Implements. simpl. now rewrite Htm. }
  assert (HI : newValueEncoder (Some (typeOf (VInterface ti (Some p))))
                 (VInterface ti (Some p))
               = newValueEncoder (Some (typeOf p)) p).
  { simpl. unfold Implements. simpl. now rewrite Htm. }
  assert (H1 : forall e, Encode e (Some (VPtr ti p)) = Encode e (Some p)).
  { intros e. unfold Encode. cbn [unwrap].
    unfold writeLine. now rewrite HP. }
  assert (H2 : forall e, Encode e (Some (VInterface ti (Some p)))
                         = Encode e (Some p)).
  { intros e. unfold Encode. cbn [unwrap].
    unfold writeLine. now rewrite HI. }
  repeat split; auto. unfold Marshal. now rewrite H1.
Qed.

(** X4. Whatever [Encode] returns, success or error, it has only appended
    to what had been written through the encoder and has kept the
    terminator: nothing written is ever taken back. *)
Theorem encode_appends_only (e e' : Encoder) (i : option Reflect.value)
    (r : option error) :
  Encode e i = Done (e', r) ->
  LineEnd e' = LineEnd e /\
  exists suffix, Bufio.written (w e') = Bufio.written (w e) ++ suffix.
Proof.
  destruct i as [iv|]; simpl.
  - intros H.
    assert (HA : forall m : exec (Encoder * option error),
      (forall e1 r1, m = Done (e1, r1) ->
         LineEnd e1 = LineEnd e /\
         exists suffix, Bufio.written (w e1) = Bufio.written (w e) ++ suffix) ->
      (r0 <- m ;;
       match r0 with
       | (e1, Some err) => Done (e1, Some err)
       | (e1, None) =>
           let '(w', err) := Bufio.Flush (w e1) in Done (withWriter e1 w', err)
       end) = Done (e', r) ->
      LineEnd e' = LineEnd e /\
      exists suffix, Bufio.written (w e') = Bufio.written (w e) ++ suffix).
    { intros m Hm. destruct m as [[e1 [err|]]|]; simpl; try discriminate.
      - intros [= <- <-]. now apply (Hm e1 (Some err)).
      - intros [= <- <-]. destruct (Hm e1 None eq_refl) as (HL & sfx & HW).
        split; [exact HL|]. exists sfx. simpl.
        unfold Bufio.written in *. simpl. now rewrite List.app_nil_r. }
    destruct (unwrap iv) as [u|];
      [destruct u|];
      try (apply (HA (writeLine e iv)); [|exact H];
           intros e1 r1 H1; exact (writeLine_appends _ _ H1)).
    apply (HA (writeLines e elems)); [|exact H].
    intros e1 r1 H1. unfold writeLines in H1.
    eapply writeLinesFrom_appends. exact H1.
  - intros [= <- <-]. split; [reflexivity|]. exists [].
    now rewrite List.app_nil_r.
Qed.

(** X5. Two [Encode] calls on one encoder write their lines one after the
    other with no terminator between the last line of the first call and
    the first line of the second. *)
Theorem encode_calls_concatenate (e : Encoder) (v1 v2 : Reflect.value)
    (ti1 ti2 : tinfo) (elems1 elems2 : list Reflect.value)
    (lines1 lines2 : list bytes) :
  unwrap v1 = Some (VSlice ti1 elems1) -> Lines elems1 lines1 ->
  unwrap v2 = Some (VSlice ti2 elems2) -> Lines elems2 lines2 ->
  exists e1 e2,
    Encode e (Some v1) = Done (e1, None) /\
    Encode e1 (Some v2) = Done (e2, None) /\
    Bufio.sink (w e2)
    = Bufio.written (w e)
        ++ joinLines (lineEnd e) lines1 ++ joinLines (lineEnd e) lines2.
Proof.
  intros Hu1 HL1 Hu2 HL2.
  destruct (Encode_slice e v1 Hu1 HL1) as (e1 & H1 & HE1 & HB1 & HS1).
  destruct (Encode_slice e1 v2 Hu2 HL2) as (e2 & H2 & HE2 & HB2 & HS2).
  exists e1, e2. split; [exact H1|]. split; [exact H2|].
  rewrite HS2. unfold Bufio.written at 1. rewrite HB1, HS1, List.app_nil_r.
  unfold lineEnd. rewrite HE1. now rewrite <- List.app_assoc.
Qed.


(** X7. Lines of one length sit at fixed offsets of the output of
    [Marshal]: line [k] of a slice whose lines all have [L] bytes occupies
    the [L] bytes from offset [k * (L + 1)], and [n] lines take
    [n * (L + 1) - 1] bytes. *)
Theorem lines_at_fixed_offsets (iv : Reflect.value) (ti : tinfo)
    (elems : list Reflect.value) (lines : list bytes) (L : nat) :
  unwrap iv = Some (VSlice ti elems) ->
  Lines elems lines ->
  Forall (fun l => length l = L) lines ->
  exists out,
    Marshal (Some iv) = Done (out, None) /\
    (forall k l, nth_error lines k = Some l ->
                 firstn L (skipn (k * (L + 1)) out) = l) /\
    (lines <> [] -> (length out + 1 = length lines * (L + 1))%nat).
Proof.
  intros Hun HL Hlen.
  destruct (Encode_slice (NewEncoder []) iv Hun HL) as (e' & H' & _ & _ & HS).
  exists (joinLines newline lines). split; [|split].
  - unfold Marshal. rewrite H'. simpl. now rewrite HS.
  - intros k l Hk. exact (joinLines_offset newline Hlen k Hk).
  - intros Hne. exact (joinLines_length newline Hlen Hne).
Qed.

(** X8. A struct whose accepted layouts tile the columns from 1 on, each
    starting right after the one before, encodes to the concatenation of
    its fields' cells: for each field its recorded bytes cut at the width
    and filled with spaces up to the width. *)
Theorem contiguous_fields_concatenate (ti : tinfo)
    (fields : list (StructField * Reflect.value)) (specs : list fieldSpec)
    (e : Z) :
  implementsTextMarshaler ti = false ->
  Layouts fields specs ->
  Tiles 1 specs e ->
  newValueEncoder (Some (TStruct ti)) (VStruct ti fields)
  = Done (concat (map cell specs), None).
Proof.
  intros Htm HL HT.
  rewrite (StructFacts.structEncoder_Layouts _ Htm HL).
  rewrite (encodeSpecs_Tiles HT (StructFacts.Layouts_ordered HL)).
  reflexivity.
Qed.

(** X9. Fields whose declared ranges are pairwise apart can be laid out in
    any order: the line is the same.  Declaration order matters for
    overlapping ranges only. *)
Theorem disjoint_fields_commute (specs specs' : list fieldSpec) :
  Permutation specs specs' ->
  Forall positioned specs ->
  ForallOrdPairs disjoint specs ->
  exists out,
    encodeSpecs specs = Done out /\ encodeSpecs specs' = Done out.
Proof.
  intros Hperm Hpos Hdis.
  assert (Hpos' : Forall positioned specs')
    by (eapply Permutation_Forall; eassumption).
  destruct (encodeSpecs_Done Hpos) as (out & Hout & Hlen & Hfree & Hlast).
  destruct (encodeSpecs_Done Hpos') as (out' & Hout' & Hlen' & Hfree' & Hlast').
  exists out. split; [exact Hout|]. rewrite Hout'. f_equal.
  assert (Hll : length out' = length out).
  { assert (H : len out' = len out).
    { rewrite Hlen, Hlen'. apply lineLength_members. intros x.
      pose proof (Permutation_map endPos Hperm) as Hm.
      split; intros Hin;
        [eapply Permutation_in; [apply Permutation_sym|]
        |eapply Permutation_in]; eassumption. }
    unfold len in H. lia. }
  symmetry. apply nth_error_ext. intros p.
  destruct (Nat.lt_ge_cases p (length out)) as [Hp|Hp].
  2:{ assert (H1 : nth_error out p = None) by (apply nth_error_None; lia).
      assert (H2 : nth_error out' p = None) by (apply nth_error_None; lia).
      congruence. }
  assert (Hsame : forall a b,
             In a specs -> In b specs -> writes a p -> writes b p -> a = b).
  { intros a b Ha Hb Hwa Hwb.
    destruct (ForallOrdPairs_In Hdis a b Ha Hb) as [E|[D|D]]; [exact E| |];
      exfalso.
    - exact (disjoint_not_writes D (proj1 Hwa) Hwb).
    - exact (disjoint_not_writes D (proj1 Hwb) Hwa). }
  destruct (last_writer specs p) as [(l1 & s & l2 & E & Hw & Hl2)|Hnone].
  - rewrite (Hlast l1 s l2 p E Hw Hl2).
    assert (Hs : In s specs) by (rewrite E; apply in_elt).
    destruct (last_writer specs' p) as [(l1' & s' & l2' & E' & Hw' & Hl2')|Hnone'].
    + rewrite (Hlast' l1' s' l2' p E' Hw' Hl2').
      assert (Hs' : In s' specs).
      { eapply Permutation_in; [apply Permutation_sym; exact Hperm|].
        rewrite E'. apply in_elt. }
      now rewrite (Hsame s' s Hs' Hs Hw' Hw).
    + exfalso. apply (Hnone' s); [|exact Hw].
      eapply Permutation_in; eassumption.
  - rewrite (Hfree p Hp Hnone). symmetry. apply Hfree'; [lia|].
    intros s Hin. apply Hnone.
    eapply Permutation_in; [apply Permutation_sym; exact Hperm | exact Hin].
Qed.

(** X10. The bytes of a field stay in its declared range: whatever bytes a
    field records, however long, the line has the same length and the same
    bytes at every position outside that field's range. *)
Theorem field_bytes_stay_in_range (l1 l2 : list fieldSpec) (s : fieldSpec)
    (b b' : bytes) :
  Forall positioned (l1 ++ s :: l2) ->
  exists out out',
    encodeSpecs (l1 ++ withValue s b :: l2) = Done out /\
    encodeSpecs (l1 ++ withValue s b' :: l2) = Done out' /\
    length out = length out' /\
    forall p, ~ covers s p -> nth_error out p = nth_error out' p.
Proof.
  intros Hpos.
  assert (Hp : forall c, Forall positioned (l1 ++ withValue s c :: l2)).
  { intros c. rewrite Forall_app in *. destruct Hpos as [H1 H2].
    split; [exact H1|]. inversion H2; subst. now constructor. }
  assert (Hll : lineLength (l1 ++ withValue s b :: l2)
                = lineLength (l1 ++ withValue s b' :: l2)).
  { apply lineLength_members. intros x. now rewrite !map_app. }
  destruct (encodeSpecs_Done (Hp b)) as (out & Hout & Hlen & _).
  destruct (encodeSpecs_Done (Hp b')) as (out' & Hout' & Hlen' & _).
  exists out, out'. split; [exact Hout|]. split; [exact Hout'|].
  split; [unfold len in *; lia|].
  intros p Hnc.
  unfold encodeSpecs in Hout, Hout'.
  rewrite Repeat_one in Hout, Hout' by apply lineLength_nonneg.
  simpl in Hout, Hout'. rewrite <- Hll in Hout'.
  refine (proj2 (@copySpecs_agree p _ _ _ (Hp b) _ _ out out'
                   eq_refl eq_refl Hout Hout')).
  apply Forall2_app; [|constructor].
  - clear. induction l1; constructor; auto. split; [split|]; auto.
  - split; [split; reflexivity | right; exact Hnc].
  - clear. induction l2; constructor; auto. split; [split|]; auto.
Qed.

(** X11. The length of a struct's line is fixed by the position
    declarations: two struct values with the same tags, whatever their
    fields hold, encode to lines of the same length. *)
Theorem same_tags_same_length (ti ti' : tinfo)
    (fields fields' : list (StructField * Reflect.value))
    (specs specs' : list fieldSpec) :
  implementsTextMarshaler ti = false ->
  implementsTextMarshaler ti' = false ->
  tagsOf fields = tagsOf fields' ->
  Layouts fields specs -> Layouts fields' specs' ->
  Forall (fun s => 1 <= startPos s) specs ->
  exists out out',
    newValueEncoder (Some (TStruct ti)) (VStruct ti fields) = Done (out, None)
    /\ newValueEncoder (Some (TStruct ti')) (VStruct ti' fields')
       = Done (out', None)
    /\ length out = length out'.
Proof.
  intros Htm Htm' Htags HL HL' Hpos.
  pose proof (Layouts_sameRange HL HL' Htags) as Hsame.
  assert (Hpos' : Forall (fun s => 1 <= startPos s) specs').
  { clear - Hsame Hpos. induction Hsame as [|a b l l' [Hs _] _ IH];
      [constructor|].
    inversion Hpos; subst. constructor; [lia | auto]. }
  assert (Hends : map endPos specs = map endPos specs').
  { clear - Hsame. induction Hsame as [|a b l l' [_ He] _ IH];
      [reflexivity|]. simpl. now rewrite He, IH. }
  destruct (StructFacts.struct_line _ Htm HL Hpos) as (out & Hout & Henc).
  destruct (StructFacts.struct_line _ Htm' HL' Hpos') as (out' & Hout' & Henc').
  exists out, out'. split; [exact Hout|]. split; [exact Hout'|].
  destruct (encodeSpecs_Done (StructFacts.Layouts_positioned HL Hpos))
    as (o & Ho & Hlen & _).
  destruct (encodeSpecs_Done (StructFacts.Layouts_positioned HL' Hpos'))
    as (o' & Ho' & Hlen' & _).
  rewrite Henc in Ho. injection Ho as <-.
  rewrite Henc' in Ho'. injection Ho' as <-.
  assert (H : len out = len out').
  { rewrite Hlen, Hlen'. apply lineLength_members. intros x.
    now rewrite Hends. }
  unfold len in H. lia.
Qed.

(** X13. The text of an integer reads back: [strconv.Atoi] applied to the
    bytes [intEncoder] produces for an integer returns that integer. *)
Theorem integer_text_reads_back (ti : tinfo) (k : IntKind) (i : Z) :
  implementsTextMarshaler ti = false ->
  intMin <= i <= intMax ->
  exists b,
    newValueEncoder (Some (TInt ti k)) (VInt ti k i) = Done (b, None) /\
    Atoi (string_of_list_byte b) = Some i.
Proof.
  intros Htm Hi. exists (Itoa i). split.
  - simpl. unfold Implements. simpl. rewrite Htm.
    unfold intEncoder. now rewrite wrap_id.
  - now apply Atoi_Itoa.
Qed.

End MoreProperties.

(** X12. [encodeSpecs] has no guard on the start column: a layout that
    starts at column 0 or before makes it panic on the slice expression,
    whatever the other layouts are. *)
Theorem nonpositive_start_panics (l1 l2 : list fieldSpec) (s : fieldSpec) :
  intMin < startPos s <= 0 ->
  encodeSpecs (l1 ++ s :: l2) = Panic.
Proof.
  intros Hs. unfold encodeSpecs.
  rewrite Repeat_one by apply lineLength_nonneg. simpl.
  now apply copySpecs_panics.
Qed.

(* ================================================================= *)
(** ** The further properties on the samples *)

Open Scope string_scope.

Lemma encode_single_value_sample :
  Marshal (Some (pair (text "foo") (int 1)))
  = Done (bytesOf "foo  1    ", None).
Proof.
  apply (@encode_single_value sampleMethods (NewEncoder [])
           (pair (text "foo") (int 1)) (bytesOf "foo  1    ")).
  - intros ti elems H. discriminate H.
  - reflexivity.
Defined.

Lemma encode_single_error_sample :
  Encode (NewEncoder (bytesOf "kept")) (Some bool)
  = Done (NewEncoder (bytesOf "kept"),
          Some (MarshalInvalidTypeError "bool")).
Proof.
  apply (@encode_single_error sampleMethods (NewEncoder (bytesOf "kept"))
           bool []).
  - intros ti elems H. discriminate H.
  - reflexivity.
Defined.

Lemma wrappers_are_transparent_sample :
  Marshal (Some (VPtr (plain "") (pair (text "foo") (int 1))))
  = Marshal (Some (pair (text "foo") (int 1))).
Proof.
  apply (@wrappers_are_transparent sampleMethods (plain "")
           (pair (text "foo") (int 1))).
  reflexivity.
Defined.

Lemma encode_appends_only_sample :
  exists e' suffix,
    Encode (NewEncoder (bytesOf "kept"))
      (Some (slice [text "X"; bool])) = Done (e', Some (MarshalInvalidTypeError "bool")) /\
    Bufio.written (w e') = (bytesOf "kept" ++ suffix)%list.
Proof.
  destruct (@encode_appends_only sampleMethods (NewEncoder (bytesOf "kept"))
              {| w := {| Bufio.sink := bytesOf "kept";
                         Bufio.buf := ["X"%byte; x0a] |};
                 LineEnd := newline |}
              (Some (slice [text "X"; bool]))
              (Some (MarshalInvalidTypeError "bool")))
    as (_ & suffix & H).
  - reflexivity.
  - eexists. exists suffix. split; [reflexivity | exact H].
Defined.

Lemma encode_calls_concatenate_sample :
  exists e1 e2,
    Encode (NewEncoder []) (Some (slice [text "X"])) = Done (e1, None) /\
    Encode e1 (Some (slice [text "Y"])) = Done (e2, None) /\
    Bufio.sink (w e2) = bytesOf "XY".
Proof.
  apply (@encode_calls_concatenate sampleMethods (NewEncoder [])
           (slice [text "X"]) (slice [text "Y"]) (plain "") (plain "")
           [text "X"] [text "Y"] [bytesOf "X"] [bytesOf "Y"]).
  - reflexivity.
  - repeat constructor.
  - reflexivity.
  - repeat constructor.
Defined.


Lemma lines_at_fixed_offsets_sample :
  exists out,
    Marshal (Some (slice [pair (text "foo") (int 1); pair (text "bar") (int 2)]))
    = Done (out, None) /\
    firstn 10 (skipn 11 out) = bytesOf "bar  2    ".
Proof.
  destruct (@lines_at_fixed_offsets sampleMethods
              (slice [pair (text "foo") (int 1); pair (text "bar") (int 2)])
              (plain "")
              [pair (text "foo") (int 1); pair (text "bar") (int 2)]
              [bytesOf "foo  1    "; bytesOf "bar  2    "] 10)
    as (out & H1 & H2 & _).
  - reflexivity.
  - repeat constructor.
  - repeat constructor.
  - exists out. split; [exact H1|].
    exact (H2 1%nat (bytesOf "bar  2    ") eq_refl).
Defined.

(** The record of the package documentation. *)
Lemma contiguous_fields_concatenate_sample :
  newValueEncoder (Some (TStruct (plain "")))
    (person 1 "Ian" "Lopshire" ninetyNineAndHalf)
  = Done (bytesOf "1    Ian       Lopshire  99.50", None).
Proof.
  apply (@contiguous_fields_concatenate sampleMethods (plain "")
           [(field "ID" "1,5", int 1);
            (field "FirstName" "6,15", text "Ian");
            (field "LastName" "16,25", text "Lopshire");
            (field "Grade" "26,30", float64 ninetyNineAndHalf)]
           [spec 1 5 false "1"; spec 6 15 false "Ian";
            spec 16 25 false "Lopshire"; spec 26 30 false "99.50"] 31).
  - reflexivity.
  - repeat (eapply LayoutsField; [reflexivity | reflexivity | reflexivity |]).
    constructor.
  - repeat (apply TilesCons; [reflexivity|]). apply TilesNil.
Defined.

Lemma disjoint_fields_commute_sample :
  exists out,
    encodeSpecs [spec 1 3 false "abc"; spec 4 6 false "de"] = Done out /\
    encodeSpecs [spec 4 6 false "de"; spec 1 3 false "abc"] = Done out.
Proof.
  apply (@disjoint_fields_commute
           [spec 1 3 false "abc"; spec 4 6 false "de"]
           [spec 4 6 false "de"; spec 1 3 false "abc"]).
  - apply perm_swap.
  - repeat constructor; simpl; unfold intMax; lia.
  - repeat constructor.
Defined.

Lemma field_bytes_stay_in_range_sample :
  exists out out',
    encodeSpecs [spec 1 3 false "abcdefgh"; spec 4 6 false "xyz"] = Done out /\
    encodeSpecs [spec 1 3 false ""; spec 4 6 false "xyz"] = Done out' /\
    nth_error out 3 = nth_error out' 3.
Proof.
  destruct (@field_bytes_stay_in_range [] [spec 4 6 false "xyz"]
              (spec 1 3 false "") (bytesOf "abcdefgh") (bytesOf ""))
    as (out & out' & H1 & H2 & _ & H4).
  - repeat constructor; simpl; unfold intMax; lia.
  - exists out, out'. split; [exact H1|]. split; [exact H2|].
    apply H4. unfold covers. simpl. lia.
Defined.

Lemma same_tags_same_length_sample :
  exists out out',
    newValueEncoder (Some (TStruct (plain "H")))
      (pair (text "foo") (int 1)) = Done (out, None) /\
    newValueEncoder (Some (TStruct (plain "H")))
      (pair (text "a text that is too long") (int 123456789))
    = Done (out', None) /\
    length out = length out'.
Proof.
  apply (@same_tags_same_length sampleMethods (plain "H") (plain "H")
           [(field "F1" "1,5", any (text "foo"));
            (field "F2" "6,10", any (int 1))]
           [(field "F1" "1,5", any (text "a text that is too long"));
            (field "F2" "6,10", any (int 123456789))]
           [spec 1 5 false "foo"; spec 6 10 false "1"]
           [spec 1 5 false "a text that is too long";
            spec 6 10 false "123456789"]).
  - reflexivity.
  - reflexivity.
  - reflexivity.
  - repeat (eapply LayoutsField; [reflexivity | reflexivity | reflexivity |]).
    constructor.
  - repeat (eapply LayoutsField; [reflexivity | reflexivity | reflexivity |]).
    constructor.
  - repeat constructor; simpl; lia.
Defined.

Lemma nonpositive_start_panics_sample :
  encodeSpecs [spec 0 5 false "foo"] = Panic.
Proof.
  apply (@nonpositive_start_panics [] [] (spec 0 5 false "foo")).
  unfold intMin. simpl. lia.
Defined.

Lemma integer_text_reads_back_sample :
  exists b,
    newValueEncoder (Some (TInt (plain "int") Int)) (int (-120))
    = Done (b, None) /\
    Atoi (string_of_list_byte b) = Some (-120).
Proof.
  apply (@integer_text_reads_back sampleMethods (plain "int") Int (-120)).
  - reflexivity.
  - unfold intMin, intMax. lia.
Defined.
